(** * Fleet dashboard (src/fleet.jsx): derived status, ordering, validation,
      seeding and statistics

    A shallow embedding of the logic of the [App] component of
    [src/fleet.jsx] and of the helper [getStatusBadge].

    Conventions of the embedding.
    - A JavaScript number is a [number]: [NaN], the two infinities, or a
      finite value held as a rational.  [+], [*], [/] and [Number(text)]
      round their exact result to binary64 ([round64]: nearest value,
      ties to even, gradual underflow, overflow to infinity), so applied
      to binary64 values they return the binary64 value JavaScript
      returns.  A difference is only tested for its sign and printed,
      and is kept exact ([NumOps.sub]).  The two zeros are identified.
      A numeric field that is missing from a record ([undefined])
      behaves as [NaN] in every operation used by the code below
      ([>=], [<], [>], [/], [|| 0]), so it is represented by [NaN].
    - A JavaScript string is the [string] of its UTF-8 bytes; ASCII text
      stands for itself.
    - React state is passed explicitly: a handler is a function from the
      component state (and the store) to the new state (and store). *)

From Stdlib Require Import ZArith QArith Qround Qabs Qpower Lia Lqa.
From Stdlib Require Qcanon.
From Stdlib Require Import Bool List String Ascii DecimalString.
From Stdlib Require Import Sorting.Sorted Sorting.Permutation.
From Stdlib Require OrderedTypeEx.
Import ListNotations.

Local Open Scope string_scope.
Local Open Scope list_scope.

(* ------------------------------------------------------------------ *)
(** ** JavaScript numbers *)

Module Num.

Inductive number : Type :=
| NaN
| PosInf
| NegInf
| Fin (q : Q).

(** The numeric order, undefined ([None]) as soon as one side is [NaN]. *)
Definition compare (x y : number) : option comparison :=
  match x, y with
  | NaN, _ | _, NaN => None
  | Fin a, Fin b => Some (a ?= b)%Q
  | PosInf, PosInf => Some Eq
  | NegInf, NegInf => Some Eq
  | PosInf, _ => Some Gt
  | _, PosInf => Some Lt
  | NegInf, _ => Some Lt
  | _, NegInf => Some Gt
  end.

(** [x < y] *)
Definition lt (x y : number) : bool :=
  match compare x y with Some Lt => true | _ => false end.

(** [x > y] *)
Definition gt (x y : number) : bool :=
  match compare x y with Some Gt => true | _ => false end.

(** [x >= y] *)
Definition ge (x y : number) : bool :=
  match compare x y with Some Gt | Some Eq => true | _ => false end.

(** [x === y] on numbers *)
Definition strict_eq (x y : number) : bool :=
  match compare x y with Some Eq => true | _ => false end.

Definition of_Z (z : Z) : number := Fin (inject_Z z).
Definition zero : number := of_Z 0.

(** *** Rounding to binary64 *)

(** The exponent of a positive rational: [2^e <= q < 2^(e+1)]. *)
Definition ilog2 (q : Q) : Z :=
  let e := (Z.log2 (Qnum q) - Z.log2 (Z.pos (Qden q)))%Z in
  if Qle_bool (2 ^ e) q then e else (e - 1)%Z.

(** The nearest integer, the even one on a tie. *)
Definition rne (x : Q) : Z :=
  let f := Qfloor x in
  match (x - inject_Z f ?= 1 # 2)%Q with
  | Lt => f
  | Gt => (f + 1)%Z
  | Eq => if Z.even f then f else (f + 1)%Z
  end.

(** A positive rational rounded to a multiple of the spacing of the
    binary64 values around it: 53 significant bits, and the fixed
    spacing [2^-1074] below [2^-1022].  [None] when the rounded value
    reaches [2^1024] (overflow). *)
Definition round_pos (a : Q) : option Q :=
  let p := (Z.max (ilog2 a) (-1022) - 52)%Z in
  let r := inject_Z (rne (a / 2 ^ p)) * 2 ^ p in
  if Qle_bool (2 ^ 1024) r then None else Some (Qred r).

(** The binary64 value nearest to a rational. *)
Definition round64 (q : Q) : number :=
  match (q ?= 0)%Q with
  | Eq => Fin 0
  | Gt => match round_pos q with Some r => Fin r | None => PosInf end
  | Lt => match round_pos (- q) with Some r => Fin (- r) | None => NegInf end
  end.

(** [x + y] *)
Definition add (x y : number) : number :=
  match x, y with
  | NaN, _ | _, NaN => NaN
  | PosInf, NegInf | NegInf, PosInf => NaN
  | PosInf, _ | _, PosInf => PosInf
  | NegInf, _ | _, NegInf => NegInf
  | Fin a, Fin b => round64 (a + b)
  end.

(** Sign of a rational as a comparison with zero. *)
Definition sgn (a : Q) : comparison := (a ?= 0)%Q.

Definition inf_of (pos : bool) : number := if pos then PosInf else NegInf.

(** [x * y] *)
Definition mul (x y : number) : number :=
  match x, y with
  | NaN, _ | _, NaN => NaN
  | Fin a, Fin b => round64 (a * b)
  | PosInf, PosInf | NegInf, NegInf => PosInf
  | PosInf, NegInf | NegInf, PosInf => NegInf
  | PosInf, Fin a | Fin a, PosInf =>
      match sgn a with Eq => NaN | Gt => PosInf | Lt => NegInf end
  | NegInf, Fin a | Fin a, NegInf =>
      match sgn a with Eq => NaN | Gt => NegInf | Lt => PosInf end
  end.

(** [x / y]; a zero divisor is taken as the positive zero. *)
Definition div (x y : number) : number :=
  match x, y with
  | NaN, _ | _, NaN => NaN
  | Fin a, Fin b =>
      match sgn b with
      | Eq => match sgn a with Eq => NaN | Gt => PosInf | Lt => NegInf end
      | _ => round64 (a / b)
      end
  | Fin _, (PosInf | NegInf) => Fin 0
  | (PosInf | NegInf), (PosInf | NegInf) => NaN
  | PosInf, Fin b => match sgn b with Lt => NegInf | _ => PosInf end
  | NegInf, Fin b => match sgn b with Lt => PosInf | _ => NegInf end
  end.

(** [Math.max(x, y)] and [Math.min(x, y)]: [NaN] as soon as one argument
    is [NaN]. *)
Definition max (x y : number) : number :=
  match compare x y with
  | None => NaN
  | Some Lt => y
  | Some _ => x
  end.

Definition min (x y : number) : number :=
  match compare x y with
  | None => NaN
  | Some Gt => y
  | Some _ => x
  end.

(** ToBoolean on a number: [0] and [NaN] are falsy. *)
Definition truthy (x : number) : bool :=
  match x with
  | NaN => false
  | Fin a => negb (Qeq_bool a 0)
  | _ => true
  end.

(** [x || y] on numbers *)
Definition or (x y : number) : number := if truthy x then x else y.

(** The number is a (finite) integer. *)
Definition is_integer (x : number) : bool :=
  match x with
  | Fin a => Qeq_bool a (inject_Z (Qfloor a))
  | _ => false
  end.

Definition is_finite (x : number) : bool :=
  match x with Fin _ => true | _ => false end.

(** [Number(value)] applied to text (StringToNumber): the text is trimmed
    of white space and line terminators, empty text is [0], a numeric
    literal is its value rounded to binary64 and anything else is
    [NaN]. *)

(** The ASCII white space and line terminators: TAB, LF, VT, FF, CR and
    SP. *)
Definition is_space (c : ascii) : bool :=
  match nat_of_ascii c with
  | 9%nat | 10%nat | 11%nat | 12%nat | 13%nat | 32%nat => true
  | _ => false
  end.

(** The other ones, by their UTF-8 bytes: U+00A0 in two bytes; U+1680,
    U+2000 to U+200A, U+2028, U+2029, U+202F, U+205F, U+3000 and U+FEFF
    in three. *)
Definition is_space2 (b1 b2 : ascii) : bool :=
  (N_of_ascii b1 =? 194)%N && (N_of_ascii b2 =? 160)%N.

Definition is_space3 (b1 b2 b3 : ascii) : bool :=
  let x := N_of_ascii b1 in
  let y := N_of_ascii b2 in
  let z := N_of_ascii b3 in
  ((x =? 225) && (y =? 154) && (z =? 128))%N
  || ((x =? 226) && (y =? 128)
      && (((128 <=? z) && (z <=? 138)) || (z =? 168) || (z =? 169)
          || (z =? 175)))%N
  || ((x =? 226) && (y =? 129) && (z =? 159))%N
  || ((x =? 227) && (y =? 128) && (z =? 128))%N
  || ((x =? 239) && (y =? 187) && (z =? 191))%N.

(** Drops the white space at the front of the text; with [backwards]
    the text is read from its end, so the bytes of a character come in
    reverse order. *)
Fixpoint trim_left (backwards : bool) (cs : list ascii) : list ascii :=
  match cs with
  | [] => []
  | c :: r =>
      if is_space c then trim_left backwards r
      else
        match r with
        | [] => cs
        | c1 :: r1 =>
            if (if backwards then is_space2 c1 c else is_space2 c c1)
            then trim_left backwards r1
            else
              match r1 with
              | [] => cs
              | c2 :: r2 =>
                  if (if backwards then is_space3 c2 c1 c
                      else is_space3 c c1 c2)
                  then trim_left backwards r2
                  else cs
              end
        end
  end.

Definition trim (cs : list ascii) : list ascii :=
  rev (trim_left true (rev (trim_left false cs))).

(** Value of a digit in the given base, if it is one. *)
Definition digit_value (base : Z) (c : ascii) : option Z :=
  let n := Z.of_nat (nat_of_ascii c) in
  let d :=
    if (48 <=? n)%Z && (n <=? 57)%Z then Some (n - 48)%Z
    else if (97 <=? n)%Z && (n <=? 102)%Z then Some (n - 87)%Z
    else if (65 <=? n)%Z && (n <=? 70)%Z then Some (n - 55)%Z
    else None in
  match d with
  | Some v => if (v <? base)%Z then Some v else None
  | None => None
  end.

(** Reads the longest run of digits: its value, its length and the rest. *)
Fixpoint digits (base : Z) (acc : Z) (len : Z) (cs : list ascii)
  : Z * Z * list ascii :=
  match cs with
  | c :: cs' =>
      match digit_value base c with
      | Some v => digits base (acc * base + v)%Z (len + 1)%Z cs'
      | None => (acc, len, cs)
      end
  | [] => (acc, len, [])
  end.

(** [0x], [0o] and [0b] literals (no sign allowed). *)
Definition parse_nondecimal (cs : list ascii) : option Z :=
  match cs with
  | "0"%char :: p :: body =>
      let base :=
        if (p =? "x")%char || (p =? "X")%char then Some 16%Z
        else if (p =? "o")%char || (p =? "O")%char then Some 8%Z
        else if (p =? "b")%char || (p =? "B")%char then Some 2%Z
        else None in
      match base with
      | Some b =>
          match digits b 0 0 body with
          | (v, len, []) => if (0 <? len)%Z then Some v else None
          | _ => None
          end
      | None => None
      end
  | _ => None
  end.

Definition pow10 (k : Z) : Q :=
  if (0 <=? k)%Z then inject_Z (10 ^ k) else 1 # Z.to_pos (10 ^ (- k)).

Definition split_sign (cs : list ascii) : bool * list ascii :=
  match cs with
  | "+"%char :: r => (false, r)
  | "-"%char :: r => (true, r)
  | _ => (false, cs)
  end.

(** Unsigned decimal literal: digits, optional fraction, optional
    exponent; at least one digit before the exponent. *)
Definition parse_decimal (cs : list ascii) : option Q :=
  let '(m1, n1, r1) := digits 10 0 0 cs in
  let '(m, n2, r2) :=
    match r1 with
    | "."%char :: r => digits 10 m1 0 r
    | _ => (m1, 0%Z, r1)
    end in
  if (n1 + n2 =? 0)%Z then None
  else
    match r2 with
    | [] => Some (inject_Z m * pow10 (- n2))
    | c :: r3 =>
        if (c =? "e")%char || (c =? "E")%char then
          let '(eneg, r4) := split_sign r3 in
          match digits 10 0 0 r4 with
          | (ex, nx, []) =>
              if (nx =? 0)%Z then None
              else Some (inject_Z m * pow10 ((if eneg then - ex else ex) - n2))
          | _ => None
          end
        else None
    end.

Definition Number (s : string) : number :=
  match trim (list_ascii_of_string s) with
  | [] => zero
  | cs =>
      match parse_nondecimal cs with
      | Some z => round64 (inject_Z z)
      | None =>
          let '(neg, body) := split_sign cs in
          if (string_of_list_ascii body =? "Infinity")%string
          then inf_of (negb neg)
          else
            match parse_decimal body with
            | Some q => round64 (if neg then - q else q)
            | None => NaN
            end
      end
  end.

(** Decimal digits of a natural number. *)
Definition digits_of (n : Z) : string :=
  NilZero.string_of_uint (N.to_uint (Z.to_N n)).

(** The integer nearest to a non-negative rational, the larger one on a
    tie (the [n] of [Number.prototype.toFixed]). *)
Definition nearest (q : Q) : Z := Qfloor (q + (1 # 2)).

(** Two rationals round to the same binary64 value. *)
Definition same_double (a b : Q) : bool :=
  match round64 a, round64 b with
  | Fin x, Fin y => Qeq_bool x y
  | PosInf, PosInf | NegInf, NegInf => true
  | _, _ => false
  end.

(** Number::toString for a value of [10^21] or more, which has [n0]
    digits before the point: the digits [s] and their number [k], as few
    as possible, such that [s * 10^(n-k)] is a text of the value, the
    nearest such [s] when two qualify.  Returns [s] and [n]; [n] is
    [n0 + 1] when the digits round up to the next power of ten. *)
Fixpoint shortest (fuel : nat) (k : Z) (n0 : Z) (q : Q) : Z * Z :=
  let scale := inject_Z (10 ^ (n0 - k)) in
  let lo := Qfloor (q / scale) in
  let hi := (lo + 1)%Z in
  let oklo := same_double (inject_Z lo * scale) q in
  let okhi := same_double (inject_Z hi * scale) q in
  let pick (s : Z) :=
    if (s =? 10 ^ k)%Z then (1%Z, (n0 + 1)%Z) else (s, n0) in
  match fuel with
  | O => pick lo
  | S fuel' =>
      if oklo && okhi then
        match (q - inject_Z lo * scale ?= inject_Z hi * scale - q)%Q with
        | Lt => pick lo
        | Gt => pick hi
        | Eq => pick (if Z.even lo then lo else hi)
        end
      else if oklo then pick lo
      else if okhi then pick hi
      else shortest fuel' (k + 1)%Z n0 q
  end.

(** The exponent notation of a value of [10^21] or more: [d.ddde+x]. *)
Definition exponent_form (q : Q) : string :=
  let n0 := Z.of_nat (String.length (digits_of (Qfloor q))) in
  let '(s, n) := shortest 17 1 n0 q in
  match digits_of s with
  | String d EmptyString => String d ("e+" ++ digits_of (n - 1))
  | String d rest => String d ("." ++ rest ++ "e+" ++ digits_of (n - 1))
  | EmptyString => ""
  end.

(** [x.toFixed(0)].  A negative [x] is printed as ["-"] followed by the
    text of [-x]; a magnitude below [10^21] is rounded to the nearest
    integer, a larger one is printed in exponent notation. *)
Definition toFixed0 (x : number) : string :=
  match x with
  | NaN => "NaN"
  | PosInf => "Infinity"
  | NegInf => "-Infinity"
  | Fin q =>
      match sgn q with
      | Lt =>
          "-" ++ (if Qle_bool (inject_Z (10 ^ 21)) (- q)
                  then exponent_form (- q)
                  else digits_of (nearest (- q)))
      | _ =>
          if Qle_bool (inject_Z (10 ^ 21)) q then exponent_form q
          else digits_of (nearest q)
      end
  end.

End Num.

Export Num (number, NaN, PosInf, NegInf, Fin).

(* ------------------------------------------------------------------ *)
(** ** Vehicle objects *)

(** A field that holds either text or a number (the [year] of the form
    starts as the empty text and becomes a number once edited; the
    statistic [avgMileage] is the number [0] or the text of [toFixed]). *)
Inductive value : Type :=
| VStr (s : string)
| VNum (n : number).

(** [createdAt]: the [serverTimestamp()] sentinel of a payload, or the
    time the store resolved it to. *)
Inductive timestamp : Type :=
| ServerTimestamp
| At (t : nat).

(** A vehicle-shaped object.  The same shape serves for the form draft
    [newVehicle] (no [id], no [createdAt]), for the payload of [addDoc]
    (no [id]) and for an element of the [vehicles] state ([id] followed
    by the document fields).  [model] may be missing: the comparator of
    the listener reads [a.model || '']. *)
Record vehicle : Type := mkVehicle {
  id : option string;
  make : string;
  model : option string;
  year : value;
  vin : string;
  mileage : number;
  nextServiceMileage : number;
  fuelType : string;
  status : string;
  createdAt : option timestamp
}.

Definition set_id (x : option string) (v : vehicle) : vehicle :=
  mkVehicle x (make v) (model v) (year v) (vin v) (mileage v)
    (nextServiceMileage v) (fuelType v) (status v) (createdAt v).
Definition set_make (x : string) (v : vehicle) : vehicle :=
  mkVehicle (id v) x (model v) (year v) (vin v) (mileage v)
    (nextServiceMileage v) (fuelType v) (status v) (createdAt v).
Definition set_model (x : option string) (v : vehicle) : vehicle :=
  mkVehicle (id v) (make v) x (year v) (vin v) (mileage v)
    (nextServiceMileage v) (fuelType v) (status v) (createdAt v).
Definition set_year (x : value) (v : vehicle) : vehicle :=
  mkVehicle (id v) (make v) (model v) x (vin v) (mileage v)
    (nextServiceMileage v) (fuelType v) (status v) (createdAt v).
Definition set_vin (x : string) (v : vehicle) : vehicle :=
  mkVehicle (id v) (make v) (model v) (year v) x (mileage v)
    (nextServiceMileage v) (fuelType v) (status v) (createdAt v).
Definition set_mileage (x : number) (v : vehicle) : vehicle :=
  mkVehicle (id v) (make v) (model v) (year v) (vin v) x
    (nextServiceMileage v) (fuelType v) (status v) (createdAt v).
Definition set_nextServiceMileage (x : number) (v : vehicle) : vehicle :=
  mkVehicle (id v) (make v) (model v) (year v) (vin v) (mileage v)
    x (fuelType v) (status v) (createdAt v).
Definition set_fuelType (x : string) (v : vehicle) : vehicle :=
  mkVehicle (id v) (make v) (model v) (year v) (vin v) (mileage v)
    (nextServiceMileage v) x (status v) (createdAt v).
Definition set_createdAt (x : option timestamp) (v : vehicle) : vehicle :=
  mkVehicle (id v) (make v) (model v) (year v) (vin v) (mileage v)
    (nextServiceMileage v) (fuelType v) (status v) x.

(** ToBoolean on text and on an optional text: empty and missing are
    falsy. *)
Definition nonempty (s : string) : bool := negb (s =? "")%string.

Definition or_empty (m : option string) : string :=
  match m with
  | Some s => s
  | None => ""
  end.

(* ------------------------------------------------------------------ *)
(** ** getStatusBadge (lines 13-21) *)

(** The three badges the helper can return. *)
Inductive badge : Type :=
| Maintenance   (* red badge, shown for the status 'In Maintenance' *)
| ServiceDue    (* yellow badge 'Service Due' *)
| Active.       (* green badge 'Active' *)

Definition getStatusBadge (v : vehicle) : badge :=
  if (status v =? "In Maintenance")%string then Maintenance
  else if Num.ge (mileage v) (nextServiceMileage v) then ServiceDue
  else Active.

(* ------------------------------------------------------------------ *)
(** ** Component state, store and effects *)

(** The state hooks of [App] (lines 25-40).  [db] is [true] once the
    Firestore handle is set. *)
Record state : Type := mkState {
  db : bool;
  userId : option string;
  vehicles : list vehicle;
  isLoading : bool;
  error : option string;
  isModalOpen : bool;
  newVehicle : vehicle
}.

Definition setVehicles (x : list vehicle) (s : state) : state :=
  mkState (db s) (userId s) x (isLoading s) (error s) (isModalOpen s)
    (newVehicle s).
Definition setIsLoading (x : bool) (s : state) : state :=
  mkState (db s) (userId s) (vehicles s) x (error s) (isModalOpen s)
    (newVehicle s).
Definition setError (x : option string) (s : state) : state :=
  mkState (db s) (userId s) (vehicles s) (isLoading s) x (isModalOpen s)
    (newVehicle s).
Definition setIsModalOpen (x : bool) (s : state) : state :=
  mkState (db s) (userId s) (vehicles s) (isLoading s) (error s) x
    (newVehicle s).
Definition setNewVehicle (x : vehicle) (s : state) : state :=
  mkState (db s) (userId s) (vehicles s) (isLoading s) (error s)
    (isModalOpen s) x.

(** The draft the form starts from and is reset to (lines 31-40, 156-158). *)
Definition defaultVehicle : vehicle :=
  mkVehicle None "" (Some "") (VStr "") "" (Num.of_Z 0) (Num.of_Z 5000)
    "Diesel" "Active" None.

(** [!db || !userId] *)
Definition notReady (s : state) : bool :=
  negb (db s) || negb (nonempty (or_empty (userId s))).

(** What a handler does besides returning a state: the [addDoc] calls it
    issues and the [setError] calls it makes, in order. *)
Inductive effect : Type :=
| AddDoc (payload : vehicle)
| SetError (msg : option string).

Definition isAddDoc (e : effect) : bool :=
  match e with AddDoc _ => true | SetError _ => false end.

Definition isSetError (e : effect) : bool :=
  match e with SetError _ => true | AddDoc _ => false end.

(** The documents of the user's collection, oldest first. *)
Definition collection : Type := list vehicle.

(** Outcome of awaiting [addDoc]. *)
Inductive outcome : Type :=
| Resolved (c : collection)
| Rejected.

Section Store.

(** The store is an external collaborator: whether it rejects a payload
    and the id it gives to a document are left open. *)
Variable rejects : collection -> vehicle -> bool.
Variable newId : collection -> string.

(** [await addDoc(vehiclesRef, payload)]: a rejected insertion leaves
    the collection as it is, an accepted one appends the document. *)
Definition addDoc (c : collection) (payload : vehicle) : outcome :=
  if rejects c payload then Rejected
  else Resolved (c ++ [set_createdAt (Some (At (List.length c)))
                         (set_id (Some (newId c)) payload)]).

(** The object literal passed to [addDoc] (lines 148-153, 195-200). *)
Definition payloadOf (v : vehicle) : vehicle :=
  set_createdAt (Some ServerTimestamp)
    (set_nextServiceMileage (nextServiceMileage v)
       (set_mileage (mileage v) v)).

(** *** handleAddVehicle (lines 128-165) *)

Definition handleAddVehicle (s : state) (c : collection)
  : state * collection * list effect :=
  if notReady s then
    (setError (Some "Database connection not ready.") s, c,
     [SetError (Some "Database connection not ready.")])
  else if negb (nonempty (make (newVehicle s)))
          || negb (nonempty (or_empty (model (newVehicle s))))
          || negb (nonempty (vin (newVehicle s))) then
    (setError (Some "Make, Model, and VIN are required.") s, c,
     [SetError (Some "Make, Model, and VIN are required.")])
  else if Num.gt (mileage (newVehicle s))
                 (nextServiceMileage (newVehicle s)) then
    (setError
       (Some "Current Mileage cannot be higher than Next Service Mileage.")
       s, c,
     [SetError
        (Some "Current Mileage cannot be higher than Next Service Mileage.")])
  else
    match addDoc c (payloadOf (newVehicle s)) with
    | Resolved c' =>
        (setError None (setIsModalOpen false (setNewVehicle defaultVehicle s)),
         c',
         [AddDoc (payloadOf (newVehicle s)); SetError None])
    | Rejected =>
        (setError
           (Some "Failed to add vehicle to the fleet. Check console.") s,
         c,
         [AddDoc (payloadOf (newVehicle s));
          SetError
            (Some "Failed to add vehicle to the fleet. Check console.")])
    end.

(** *** handleLoadSampleData (lines 168-210) *)

Definition sampleVehicles : list vehicle :=
  [ mkVehicle None "Ford" (Some "Transit 350") (VNum (Num.of_Z 2021))
      "1FTSE1EL1MJD12345" (Num.of_Z 85000) (Num.of_Z 80000)
      "Diesel" "Active" None;
    mkVehicle None "Tesla" (Some "Model 3") (VNum (Num.of_Z 2023))
      "5YJSA1E20NF1234567" (Num.of_Z 12000) (Num.of_Z 25000)
      "Electric" "Active" None;
    mkVehicle None "Freightliner" (Some "Cascadia 126")
      (VNum (Num.of_Z 2019))
      "3FLXA9EMXKJ123456" (Num.of_Z 150000) (Num.of_Z 160000)
      "Diesel" "In Maintenance" None;
    mkVehicle None "Toyota" (Some "Tacoma") (VNum (Num.of_Z 2020))
      "3TMYF5AN6LK123456" (Num.of_Z 45000) (Num.of_Z 55000)
      "Gasoline" "Active" None ].

(** The [for ... of] loop of lines 194-201: one awaited [addDoc] per
    element; a rejection leaves the loop (the exception reaches the
    [catch]).  Returns the collection, the calls issued and whether the
    loop ran to its end. *)
Fixpoint addAll (batch : list vehicle) (c : collection)
  : collection * list effect * bool :=
  match batch with
  | [] => (c, [], true)
  | v :: rest =>
      match addDoc c (payloadOf v) with
      | Resolved c' =>
          let '(c'', calls, ok) := addAll rest c' in
          (c'', AddDoc (payloadOf v) :: calls, ok)
      | Rejected => (c, [AddDoc (payloadOf v)], false)
      end
  end.

(** The handler, with the list it seeds as a parameter. *)
Definition loadVehicles (batch : list vehicle) (s : state) (c : collection)
  : state * collection * list effect :=
  if notReady s then
    (setError (Some "Database connection not ready.") s, c,
     [SetError (Some "Database connection not ready.")])
  else
    let s1 := setIsLoading true s in
    let '(c', calls, ok) := addAll batch c in
    if ok then
      (setError (Some "Sample data loaded successfully!") s1, c',
       calls ++ [SetError (Some "Sample data loaded successfully!")])
    else
      (setIsLoading false
         (setError (Some "Failed to load sample data. Check console.") s1),
       c',
       calls ++ [SetError (Some "Failed to load sample data. Check console.")]).

Definition handleLoadSampleData (s : state) (c : collection)
  : state * collection * list effect :=
  loadVehicles sampleVehicles s c.

End Store.

(* ------------------------------------------------------------------ *)
(** ** handleInputChange (lines 120-126) *)

(** The controls of the form that carry [onChange={handleInputChange}]
    (lines 413-507). *)
Inductive input : Type :=
| InMake
| InModel
| InYear
| InFuelType
| InVin
| InMileage
| InNextServiceMileage.

(** The [type] of each control: [<input type=...>], or ['select-one'] for
    the [<select>]. *)
Definition typeOf (i : input) : string :=
  match i with
  | InMake | InModel | InVin => "text"
  | InYear | InMileage | InNextServiceMileage => "number"
  | InFuelType => "select-one"
  end.

(** [{...prev, [name]: x}] for the [name] of the control. *)
Definition assign (i : input) (x : value) (prev : vehicle) : vehicle :=
  match i, x with
  | InMake, VStr t => set_make t prev
  | InModel, VStr t => set_model (Some t) prev
  | InYear, _ => set_year x prev
  | InFuelType, VStr t => set_fuelType t prev
  | InVin, VStr t => set_vin t prev
  | InMileage, VNum n => set_mileage n prev
  | InNextServiceMileage, VNum n => set_nextServiceMileage n prev
  | _, _ => prev (* not reached: the shape of [x] follows [typeOf i] *)
  end.

Definition handleInputChange (target : input) (value : string) (s : state)
  : state :=
  setNewVehicle
    (assign target
       (if (typeOf target =? "number")%string
        then VNum (Num.Number value) else VStr value)
       (newVehicle s))
    s.

(** What a control of type number hands over for a text typed into it
    (HTML's value sanitization): the text itself when it is a valid
    floating-point number, that is an optional [-], then digits, or
    digits with a fraction, or a fraction alone, then an optional
    exponent; the empty text otherwise. *)
Definition validUnsigned (body : list ascii) : bool :=
  let '(_, n1, r1) := Num.digits 10 0 0 body in
  let '(digitsOk, r2) :=
    match r1 with
    | c :: r =>
        if (c =? ".")%char
        then let '(_, n2, r') := Num.digits 10 0 0 r in ((0 <? n2)%Z, r')
        else ((0 <? n1)%Z, r1)
    | [] => ((0 <? n1)%Z, r1)
    end in
  digitsOk
  && match r2 with
     | [] => true
     | c :: r3 =>
         ((c =? "e")%char || (c =? "E")%char)
         && (let '(_, r4) := Num.split_sign r3 in
             match Num.digits 10 0 0 r4 with
             | (_, nx, []) => (0 <? nx)%Z
             | _ => false
             end)
     end.

Definition validFloat (text : string) : bool :=
  match list_ascii_of_string text with
  | c :: r => validUnsigned (if (c =? "-")%char then r else c :: r)
  | [] => false
  end.

Definition delivered (text : string) : string :=
  if validFloat text then text else "".

(** An ASCII character that is not white space. *)
Definition plain (c : ascii) : bool :=
  negb (Num.is_space c) && (N_of_ascii c <? 128)%N.

(* ------------------------------------------------------------------ *)
(** ** The Firestore listener (lines 89-114) *)

(** One element of [snapshot.docs]: its [id] and what [data()] returns,
    [None] when the call throws. *)
Record docSnapshot : Type := mkDoc {
  doc_id : string;
  doc_data : option vehicle
}.

(** [{id: doc.id, ...doc.data()}] *)
Definition spread (d : docSnapshot) : option vehicle :=
  match doc_data d with
  | Some f =>
      Some (match id f with
            | Some _ => f
            | None => set_id (Some (doc_id d)) f
            end)
  | None => None
  end.

(** [snapshot.docs.map(...)]: throws as soon as one element does. *)
Fixpoint mapDocs (docs : list docSnapshot) : option (list vehicle) :=
  match docs with
  | [] => Some []
  | d :: rest =>
      match spread d with
      | Some v =>
          match mapDocs rest with
          | Some vs => Some (v :: vs)
          | None => None
          end
      | None => None
      end
  end.

Section Listener.

(** [String.prototype.localeCompare]: negative, zero or positive. *)
Variable localeCompare : string -> string -> Z.

(** [statusA] / [statusB] of the comparator. *)
Definition urgency (a : vehicle) : Z :=
  if (status a =? "In Maintenance")%string
     || Num.ge (mileage a) (nextServiceMileage a)
  then 0%Z else 1%Z.

(** The comparator passed to [sort] (lines 96-101). *)
Definition compareVehicles (a b : vehicle) : Z :=
  if negb (urgency a =? urgency b)%Z then (urgency a - urgency b)%Z
  else localeCompare (or_empty (model a)) (or_empty (model b)).

(** [Array.prototype.sort(cmp)] is a stable sort: with a consistent
    comparator its result is the one arrangement of the input that is
    ordered by [cmp] and keeps equal elements in input order (see
    [sort_unique] below), which is what inserting each element before
    the first one it does not exceed computes. *)
Fixpoint insert {A : Type} (cmp : A -> A -> Z) (x : A) (l : list A)
  : list A :=
  match l with
  | [] => [x]
  | y :: l' => if (cmp x y <=? 0)%Z then x :: l else y :: insert cmp x l'
  end.

Fixpoint sort {A : Type} (cmp : A -> A -> Z) (l : list A) : list A :=
  match l with
  | [] => []
  | x :: l' => insert cmp x (sort cmp l')
  end.

(** The success callback of [onSnapshot] with its [try]/[catch]. *)
Definition onSnapshotNext (docs : list docSnapshot) (s : state)
  : state * list effect :=
  match mapDocs docs with
  | Some fetchedVehicles =>
      (setIsLoading false
         (setVehicles (sort compareVehicles fetchedVehicles) s), [])
  | None =>
      (setIsLoading false (setError (Some "Could not load fleet data.") s),
       [SetError (Some "Could not load fleet data.")])
  end.

(** The error callback of [onSnapshot]. *)
Definition onSnapshotError (s : state) : state * list effect :=
  (setIsLoading false (setError (Some "Real-time connection failed.") s),
   [SetError (Some "Real-time connection failed.")]).

End Listener.

(* ------------------------------------------------------------------ *)
(** ** Utility calculations (lines 214-219) *)

Definition totalVehicles (vs : list vehicle) : nat := List.length vs.

Definition isActive (v : vehicle) : bool :=
  (status v =? "Active")%string
  && Num.lt (mileage v) (nextServiceMileage v).

Definition isServiceDue (v : vehicle) : bool :=
  Num.ge (mileage v) (nextServiceMileage v)
  || (status v =? "In Maintenance")%string.

Definition activeVehicles (vs : list vehicle) : nat :=
  List.length (filter isActive vs).

Definition serviceDue (vs : list vehicle) : nat :=
  List.length (filter isServiceDue vs).

Definition totalMileage (vs : list vehicle) : number :=
  fold_left (fun sum v => Num.add sum (Num.or (mileage v) Num.zero))
    vs Num.zero.

Definition avgMileage (vs : list vehicle) : value :=
  if (0 <? totalVehicles vs)%nat
  then VStr (Num.toFixed0
               (Num.div (totalMileage vs)
                  (Num.of_Z (Z.of_nat (totalVehicles vs)))))
  else VNum Num.zero.

(* ------------------------------------------------------------------ *)
(** ** VehicleRow (lines 235-247) *)

Definition serviceProgress (v : vehicle) : number :=
  if Num.gt (nextServiceMileage v) Num.zero
  then Num.min (Num.of_Z 100)
         (Num.max (Num.of_Z 0)
            (Num.mul (Num.div (mileage v) (nextServiceMileage v))
               (Num.of_Z 100)))
  else Num.zero.

(* ------------------------------------------------------------------ *)
(** ** Initial state and vocabulary of the specification *)

(** The initial values of the state hooks (lines 25-40). *)
Definition initialState : state :=
  mkState false None [] true None false defaultVehicle.

(** The state after a list of edits of the form, oldest first. *)
Definition edited (edits : list (input * string)) (s : state) : state :=
  fold_left (fun s e => handleInputChange (fst e) (snd e) s) edits s.

(** The property of a draft that a control writes, read back. *)
Definition fieldOf (i : input) (v : vehicle) : value :=
  match i with
  | InMake => VStr (make v)
  | InModel => VStr (or_empty (model v))
  | InYear => year v
  | InFuelType => VStr (fuelType v)
  | InVin => VStr (vin v)
  | InMileage => VNum (mileage v)
  | InNextServiceMileage => VNum (nextServiceMileage v)
  end.

(** The two validation failures of the specification and the message the
    code shows for each. *)
Inductive validationError : Type :=
| MissingRequiredField
| MileageInversion.

Definition message (e : validationError) : string :=
  match e with
  | MissingRequiredField => "Make, Model, and VIN are required."
  | MileageInversion =>
      "Current Mileage cannot be higher than Next Service Mileage."
  end.

(** The submission validator as the specification words it: rule 1 (make,
    model and vin all non-empty), then rule 2 (mileage at most
    nextServiceMileage); the first violated rule is reported. *)
Definition validate (draft : vehicle) : option validationError :=
  if (make draft =? "")%string
     || (or_empty (model draft) =? "")%string
     || (vin draft =? "")%string
  then Some MissingRequiredField
  else if Num.gt (mileage draft) (nextServiceMileage draft)
  then Some MileageInversion
  else None.

(** The derived status is one of the two urgent ones. *)
Definition urgent (v : vehicle) : bool :=
  match getStatusBadge v with
  | Maintenance | ServiceDue => true
  | Active => false
  end.

(** [clamp lo hi x]: [x] brought into the interval from [lo] to [hi]. *)
Definition clamp (lo hi x : Q) : Q :=
  if Qle_bool x lo then lo else if Qle_bool hi x then hi else x.

(** The document the store keeps for an accepted payload, and the
    collection after a list of payloads was accepted one after the
    other. *)
Definition stored (newId : collection -> string) (c : collection)
  (payload : vehicle) : vehicle :=
  set_createdAt (Some (At (List.length c))) (set_id (Some (newId c)) payload).

Definition persisted (newId : collection -> string) (c : collection)
  (payloads : list vehicle) : collection :=
  fold_left (fun c p => c ++ [stored newId c p]) payloads c.

(** Every element of [pre] is accepted when inserted, in order, into the
    collection that starts as [c]. *)
Definition allAccepted (rejects : collection -> vehicle -> bool)
  (newId : collection -> string) (c : collection) (pre : list vehicle)
  : Prop :=
  forall p1 x p2, pre = p1 ++ x :: p2 ->
    rejects (persisted newId c (map payloadOf p1)) (payloadOf x) = false.

(** One consistent ordering of text, used in the examples: the order of
    the character codes. *)
Definition codeCompare (a b : string) : Z :=
  match String.compare a b with
  | Lt => (-1)%Z
  | Eq => 0%Z
  | Gt => 1%Z
  end.

(** A record is counted by one of the two aggregates. *)
Definition counted (v : vehicle) : Prop :=
  status v = "In Maintenance"
  \/ Num.ge (mileage v) (nextServiceMileage v) = true
  \/ (status v = "Active"
      /\ Num.lt (mileage v) (nextServiceMileage v) = true).

(** The exponent of the spacing of the binary64 values around a positive
    rational, the multiple of that spacing nearest to it, and the
    positive rationals that are such a multiple themselves. *)
Definition spacingExp (a : Q) : Z :=
  (Z.max (Num.ilog2 a) (-1022) - 52)%Z.

Definition rounded (a : Q) : Q :=
  inject_Z (Num.rne (a / 2 ^ spacingExp a)) * 2 ^ spacingExp a.

Definition representable (c : Q) : Prop :=
  exists m : Z, c == inject_Z m * 2 ^ spacingExp c.

(** The mileage of a record in whole miles ([0] when it is missing), the
    records whose mileage is a non-negative whole number or is missing,
    and the exact sum of the mileages of a list. *)
Definition milesOf (v : vehicle) : Z :=
  match mileage v with
  | Fin q => Qfloor q
  | _ => 0%Z
  end.

Definition wholeMiles (v : vehicle) : Prop :=
  mileage v = NaN \/ exists z, (0 <= z)%Z /\ mileage v = Num.of_Z z.

Definition sumMiles (vs : list vehicle) : Z :=
  fold_right Z.add 0%Z (map milesOf vs).

(** The finite binary64 values are multiples of [2^-1074]. *)
Definition onGrid (q : Q) : Prop :=
  exists k : Z, q == inject_Z k * 2 ^ (-1074).

(* ------------------------------------------------------------------ *)
(** ** Further parts of the component *)

Module NumOps.

(** [x - y].  The component takes the sign of a difference and prints
    it, so the difference is kept exact: the binary64 difference of two
    binary64 values has the sign of the exact one, and is the exact one
    for whole numbers below [2^53]. *)
Definition sub (x y : number) : number :=
  match x, y with
  | NaN, _ | _, NaN => NaN
  | Fin a, Fin b => Fin (a - b)
  | PosInf, PosInf | NegInf, NegInf => NaN
  | PosInf, _ | _, NegInf => PosInf
  | NegInf, _ | _, PosInf => NegInf
  end.

(** [x <= y] *)
Definition le (x y : number) : bool :=
  match Num.compare x y with Some Lt | Some Eq => true | _ => false end.

End NumOps.

Definition setDb (x : bool) (s : state) : state :=
  mkState x (userId s) (vehicles s) (isLoading s) (error s) (isModalOpen s)
    (newVehicle s).
Definition setUserId (x : option string) (s : state) : state :=
  mkState (db s) x (vehicles s) (isLoading s) (error s) (isModalOpen s)
    (newVehicle s).

(** *** The authentication listener (lines 50-67) *)

(** What the callback of [onAuthStateChanged] reads from outside:
    the global [initialAuthToken] ([None] for [null]), whether the
    awaited sign-in resolves, the value of [crypto.randomUUID()] and
    [auth.currentUser?.uid] after an anonymous sign-in. *)
Record authEnv : Type := mkAuthEnv {
  initialAuthToken : option string;
  signInResolves : bool;
  randomUUID : string;
  currentUserUid : option string
}.

(** The callback, for a signed-in user ([Some uid]) or none.  When the
    awaited sign-in rejects the callback stops there and sets nothing. *)
Definition authStateChanged (env : authEnv) (user : option string)
  (s : state) : state :=
  match user with
  | Some uid => setUserId (Some uid) (setDb true s)
  | None =>
      if nonempty (or_empty (initialAuthToken env)) then
        if signInResolves env then setUserId None (setDb true s) else s
      else
        if signInResolves env then
          setUserId
            (Some (if nonempty (or_empty (currentUserUid env))
                   then or_empty (currentUserUid env)
                   else randomUUID env))
            (setDb true s)
        else s
  end.

(** *** The row of a vehicle (lines 235-242) *)

Definition mileageLeft (v : vehicle) : number :=
  NumOps.sub (nextServiceMileage v) (mileage v).

(** What the row shows under the bar: the miles left, or OVERDUE. *)
Inductive display : Type :=
| MilesLeft (text : string)
| Overdue.

Section Row.

(** [Number.prototype.toLocaleString] *)
Variable toLocaleString : number -> string.

Definition mileageDisplay (v : vehicle) : display :=
  if Num.gt (mileageLeft v) Num.zero
  then MilesLeft (toLocaleString (mileageLeft v) ++ " mi left")
  else Overdue.

End Row.

Definition serviceBarColor (v : vehicle) : string :=
  if NumOps.le (mileageLeft v) Num.zero then "bg-red-500"
  else if Num.lt (mileageLeft v) (Num.of_Z 1000) then "bg-yellow-500"
  else "bg-green-500".

(** No two different records of the list compare equal. *)
Definition noTies (cmp : vehicle -> vehicle -> Z) (l : list vehicle) : Prop :=
  forall x y, In x l -> In y l -> cmp x y = 0%Z -> x = y.

(* ------------------------------------------------------------------ *)
(** ** Numbers: order facts *)

Lemma lt_ge_exclusive x y : Num.lt x y = true -> Num.ge x y = false.
Proof.
  unfold Num.lt, Num.ge. destruct (Num.compare x y) as [[]|]; congruence.
Qed.



(* ------------------------------------------------------------------ *)
(** ** Rounding to binary64 *)

Local Open Scope Q_scope.

Lemma pow2_pos k : 0 < 2 ^ k.
Proof. apply Qpower_0_lt. reflexivity. Qed.

Lemma pow2_plus a b : 2 ^ (a + b) == 2 ^ a * 2 ^ b.
Proof. apply Qpower_plus. discriminate. Qed.

Lemma pow2_le a b : (a <= b)%Z -> 2 ^ a <= 2 ^ b.
Proof. intros H. apply Qpower_le_compat_l; [exact H|]. discriminate. Qed.

Lemma pow2_lt a b : (a < b)%Z -> 2 ^ a < 2 ^ b.
Proof. intros H. apply Qpower_lt_compat_l; [exact H|]. reflexivity. Qed.

Lemma pow2_Z k : (0 <= k)%Z -> 2 ^ k == inject_Z (2 ^ k).
Proof. intros H. symmetry. apply (Zpower_Qpower 2 k H). Qed.

Lemma pow2_succ k : 2 ^ (k + 1) == 2 * 2 ^ k.
Proof. rewrite pow2_plus. change (2 ^ 1) with 2. ring. Qed.

Lemma ilog2_spec q :
  0 < q -> 2 ^ Num.ilog2 q <= q /\ q < 2 ^ (Num.ilog2 q + 1).
Proof.
  intros Hq. unfold Num.ilog2.
  destruct q as [n d]. simpl Qnum. simpl Qden.
  assert (0 < n)%Z as Hn.
  { unfold Qlt in Hq. simpl in Hq. lia. }
  destruct (Z.log2_spec n Hn) as [Hn1 Hn2].
  destruct (Z.log2_spec (Z.pos d) (Pos2Z.is_pos d)) as [Hd1 Hd2].
  pose proof (Z.log2_nonneg n) as Ln.
  pose proof (Z.log2_nonneg (Z.pos d)) as Ld.
  set (ln := Z.log2 n) in *. set (ld := Z.log2 (Z.pos d)) in *.
  assert (n # d == inject_Z n / inject_Z (Z.pos d)) as Eq
    by apply Qmake_Qdiv.
  assert (0 < inject_Z (Z.pos d)) as Hdpos.
  { change 0 with (inject_Z 0). rewrite <- Zlt_Qlt. lia. }
  assert (2 ^ ln <= inject_Z n) as A1.
  { rewrite pow2_Z by lia. now rewrite <- Zle_Qle. }
  assert (inject_Z n < 2 ^ (ln + 1)) as A2.
  { rewrite pow2_Z by lia. rewrite <- Zlt_Qlt. now rewrite <- Z.add_1_r in Hn2. }
  assert (2 ^ ld <= inject_Z (Z.pos d)) as B1.
  { rewrite pow2_Z by lia. now rewrite <- Zle_Qle. }
  assert (inject_Z (Z.pos d) < 2 ^ (ld + 1)) as B2.
  { rewrite pow2_Z by lia. rewrite <- Zlt_Qlt. now rewrite <- Z.add_1_r in Hd2. }
  pose proof (pow2_pos ln) as P1. pose proof (pow2_pos ld) as P2.
  pose proof (pow2_pos (ln - ld)) as P3.
  assert (2 ^ ln == 2 ^ (ln - ld) * 2 ^ ld) as E1.
  { rewrite <- pow2_plus. now replace (ln - ld + ld)%Z with ln by lia. }
  (* n/d < 2 * 2^(ln-ld) and n/d > 2^(ln-ld) / 2 *)
  assert (n # d < 2 ^ (ln - ld + 1)) as U.
  { rewrite Eq. apply Qlt_shift_div_r; [exact Hdpos|].
    rewrite pow2_succ. rewrite pow2_succ in A2.
    apply Qlt_le_trans with (2 * 2 ^ ln); [exact A2|].
    rewrite E1. nra. }
  assert (2 ^ (ln - ld - 1) < n # d) as L.
  { rewrite Eq. apply Qlt_shift_div_l; [exact Hdpos|].
    assert (2 ^ (ln - ld) == 2 * 2 ^ (ln - ld - 1)) as E2.
    { rewrite <- pow2_succ. now replace (ln - ld - 1 + 1)%Z with (ln - ld)%Z by lia. }
    rewrite pow2_succ in B2.
    pose proof (pow2_pos (ln - ld - 1)) as P4.
    apply Qlt_le_trans with (2 ^ (ln - ld - 1) * (2 * 2 ^ ld)).
    - apply Qmult_lt_l; assumption.
    - rewrite E2 in E1. nra. }
  destruct (Qle_bool (2 ^ (ln - ld)) (n # d)) eqn:E.
  - apply Qle_bool_iff in E. split; assumption.
  - assert (~ 2 ^ (ln - ld) <= n # d) as N
      by (rewrite <- Qle_bool_iff; congruence).
    replace (ln - ld - 1 + 1)%Z with (ln - ld)%Z by lia.
    split; [apply Qlt_le_weak; exact L|]. now apply Qnot_le_lt.
Qed.

Lemma ilog2_unique q e :
  2 ^ e <= q -> q < 2 ^ (e + 1) -> Num.ilog2 q = e.
Proof.
  intros H1 H2.
  assert (0 < q) as Hq by (pose proof (pow2_pos e); lra).
  destruct (ilog2_spec q Hq) as [S1 S2].
  destruct (Z.lt_trichotomy (Num.ilog2 q) e) as [H|[H|H]]; [|exact H|].
  - pose proof (pow2_le (Num.ilog2 q + 1) e ltac:(lia)). lra.
  - pose proof (pow2_le (e + 1) (Num.ilog2 q) ltac:(lia)). lra.
Qed.

Lemma ilog2_comp a b : 0 < a -> a == b -> Num.ilog2 a = Num.ilog2 b.
Proof.
  intros Ha E. symmetry. destruct (ilog2_spec a Ha) as [S1 S2].
  apply ilog2_unique; now rewrite <- E.
Qed.

Lemma ilog2_mono a b : 0 < a -> a <= b -> (Num.ilog2 a <= Num.ilog2 b)%Z.
Proof.
  intros Ha Hab.
  destruct (ilog2_spec a Ha) as [A1 A2].
  destruct (ilog2_spec b ltac:(lra)) as [B1 B2].
  destruct (Z_le_gt_dec (Num.ilog2 a) (Num.ilog2 b)) as [H|H]; [exact H|].
  pose proof (pow2_le (Num.ilog2 b + 1) (Num.ilog2 a) ltac:(lia)). lra.
Qed.

Lemma rne_bounds x :
  (Qfloor x <= Num.rne x <= Qfloor x + 1)%Z
  /\ Qabs (inject_Z (Num.rne x) - x) <= 1 # 2.
Proof.
  unfold Num.rne.
  pose proof (Qfloor_le x) as Hlo. pose proof (Qlt_floor x) as Hhi.
  rewrite inject_Z_plus in Hhi. change (inject_Z 1) with 1 in Hhi.
  destruct (Qcompare_spec (x - inject_Z (Qfloor x)) (1 # 2)) as [H|H|H].
  - destruct (Z.even (Qfloor x)); (split; [lia|]);
      apply Qabs_Qle_condition; try rewrite inject_Z_plus;
      change (inject_Z 1) with 1; split; lra.
  - split; [lia|]. apply Qabs_Qle_condition. split; lra.
  - split; [lia|]. apply Qabs_Qle_condition. rewrite inject_Z_plus.
    change (inject_Z 1) with 1. split; lra.
Qed.

Lemma rne_ge x N : inject_Z N <= x -> (N <= Num.rne x)%Z.
Proof.
  intros H. apply Z.le_trans with (Qfloor x); [|apply rne_bounds].
  rewrite <- (Qfloor_Z N). now apply Qfloor_resp_le.
Qed.

Lemma rne_Z N : Num.rne (inject_Z N) = N.
Proof.
  unfold Num.rne. rewrite Qfloor_Z.
  assert ((inject_Z N - inject_Z N ?= 1 # 2) = Lt) as ->; [|reflexivity].
  change (inject_Z N - inject_Z N < 1 # 2). lra.
Qed.

Lemma rne_comp a b : a == b -> Num.rne a = Num.rne b.
Proof.
  intros E. unfold Num.rne.
  assert (Qfloor a = Qfloor b) as F by now rewrite E.
  cbv zeta. rewrite F.
  assert ((a - inject_Z (Qfloor b) ?= 1 # 2)
          = (b - inject_Z (Qfloor b) ?= 1 # 2)) as -> by now rewrite E.
  reflexivity.
Qed.

Lemma rne_integer x N : x == inject_Z N -> Num.rne x = N.
Proof. intros E. rewrite (rne_comp _ _ E). apply rne_Z. Qed.

(** The spacing of the binary64 values around a positive rational. *)
Lemma round_pos_unfold a :
  Num.round_pos a
  = let p := (Z.max (Num.ilog2 a) (-1022) - 52)%Z in
    let r := inject_Z (Num.rne (a / 2 ^ p)) * 2 ^ p in
    if Qle_bool (2 ^ 1024) r then None else Some (Qred r).
Proof. reflexivity. Qed.

Lemma round_pos_comp a b :
  0 < a -> a == b -> Num.round_pos a = Num.round_pos b.
Proof.
  intros Ha E. rewrite !round_pos_unfold. cbv zeta.
  rewrite <- (ilog2_comp a b Ha E).
  set (p := (Z.max (Num.ilog2 a) (-1022) - 52)%Z).
  assert (Num.rne (a / 2 ^ p) = Num.rne (b / 2 ^ p)) as ->
    by (apply rne_comp; now rewrite E).
  reflexivity.
Qed.

Lemma round64_comp a b : a == b -> Num.round64 a = Num.round64 b.
Proof.
  intros E. unfold Num.round64.
  assert ((a ?= 0) = (b ?= 0)) as <- by now rewrite E.
  destruct (Qcompare_spec a 0) as [H|H|H]; [reflexivity| |].
  - rewrite (round_pos_comp (- a) (- b)); [reflexivity|lra|now rewrite E].
  - rewrite (round_pos_comp a b H E). reflexivity.
Qed.

Lemma round_pos_rounded a :
  match Num.round_pos a with
  | Some r => r == rounded a /\ rounded a < 2 ^ 1024
  | None => 2 ^ 1024 <= rounded a
  end.
Proof.
  rewrite round_pos_unfold. cbv zeta. fold (spacingExp a). fold (rounded a).
  destruct (Qle_bool (2 ^ 1024) (rounded a)) eqn:E.
  - now apply Qle_bool_iff.
  - split; [apply Qred_correct|].
    apply Qnot_le_lt. rewrite <- Qle_bool_iff. congruence.
Qed.

Lemma scaled_pos a : 0 < a -> 0 < a / 2 ^ spacingExp a.
Proof.
  intros Ha. apply Qlt_shift_div_l; [apply pow2_pos|]. lra.
Qed.

Lemma rounded_nonneg a : 0 < a -> 0 <= rounded a.
Proof.
  intros Ha. unfold rounded.
  pose proof (pow2_pos (spacingExp a)) as P.
  assert (0 <= Num.rne (a / 2 ^ spacingExp a))%Z as Hm.
  { apply rne_ge. apply Qlt_le_weak. now apply scaled_pos. }
  assert (0 <= inject_Z (Num.rne (a / 2 ^ spacingExp a))) as Hq.
  { change 0 with (inject_Z 0). now rewrite <- Zle_Qle. }
  nra.
Qed.

Lemma rounded_error a :
  Qabs (rounded a - a) <= (1 # 2) * 2 ^ spacingExp a.
Proof.
  unfold rounded. set (p := spacingExp a).
  pose proof (pow2_pos p) as P.
  destruct (rne_bounds (a / 2 ^ p)) as [_ H].
  apply Qabs_Qle_condition in H as [H1 H2].
  assert (a == a / 2 ^ p * 2 ^ p) as E by (field; lra).
  set (m := inject_Z (Num.rne (a / 2 ^ p))) in *.
  set (x := a / 2 ^ p) in *.
  apply Qabs_Qle_condition. split.
  - rewrite E at 1. nra.
  - rewrite E at 1. nra.
Qed.

Lemma spacingExp_mono a b :
  0 < a -> a <= b -> (spacingExp a <= spacingExp b)%Z.
Proof.
  intros Ha Hab. unfold spacingExp.
  pose proof (ilog2_mono a b Ha Hab). lia.
Qed.

(** Rounding does not go below a binary64 value that the rational
    reaches. *)
Lemma rounded_ge c a :
  0 < c -> representable c -> c <= a -> c <= rounded a.
Proof.
  intros Hc [mc Hmc] Hca.
  assert (0 < a) as Ha by lra.
  pose proof (spacingExp_mono c a Hc Hca) as Hp.
  pose proof (pow2_pos (spacingExp a)) as Pa.
  pose proof (pow2_pos (spacingExp c)) as Pc.
  unfold rounded.
  destruct (Z.eq_dec (spacingExp c) (spacingExp a)) as [E|N].
  - rewrite E in Hmc.
    assert (inject_Z mc <= a / 2 ^ spacingExp a) as Hs.
    { apply Qle_shift_div_l; [exact Pa|]. now rewrite <- Hmc. }
    apply rne_ge in Hs. rewrite Zle_Qle in Hs. rewrite Hmc. nra.
  - assert (spacingExp c < spacingExp a)%Z as Hlt by lia.
    unfold spacingExp in Hlt.
    assert (Num.ilog2 c < Num.ilog2 a)%Z as He by lia.
    assert (-1022 <= Num.ilog2 a)%Z as Hn by lia.
    assert (spacingExp a = Num.ilog2 a - 52)%Z as Ea
      by (unfold spacingExp; lia).
    destruct (ilog2_spec a Ha) as [A1 _].
    destruct (ilog2_spec c Hc) as [_ C2].
    pose proof (pow2_le (Num.ilog2 c + 1) (Num.ilog2 a) ltac:(lia)) as Hpw.
    assert (2 ^ Num.ilog2 a == inject_Z (2 ^ 52) * 2 ^ spacingExp a) as Ep.
    { rewrite <- (pow2_Z 52) by lia. rewrite <- pow2_plus.
      rewrite Ea. now replace (52 + (Num.ilog2 a - 52))%Z
                     with (Num.ilog2 a) by lia. }
    assert (inject_Z (2 ^ 52) <= a / 2 ^ spacingExp a) as Hs.
    { apply Qle_shift_div_l; [exact Pa|]. now rewrite <- Ep. }
    apply rne_ge in Hs. rewrite Zle_Qle in Hs.
    apply Qle_trans with (2 ^ Num.ilog2 a); [lra|].
    rewrite Ep. nra.
Qed.

(** A multiple of the spacing is kept. *)
Lemma rounded_exact a m :
  a == inject_Z m * 2 ^ spacingExp a -> rounded a == a.
Proof.
  intros E. unfold rounded.
  pose proof (pow2_pos (spacingExp a)) as P.
  assert (a / 2 ^ spacingExp a == inject_Z m) as Es.
  { rewrite E at 1. field. lra. }
  rewrite (rne_integer _ m Es). now symmetry.
Qed.

Lemma round64_pos q :
  0 < q ->
  Num.round64 q = match Num.round_pos q with
                  | Some r => Fin r
                  | None => PosInf
                  end.
Proof.
  intros H. unfold Num.round64.
  assert ((q ?= 0) = Gt) as -> by now apply Qgt_alt.
  reflexivity.
Qed.

Lemma round64_neg q :
  q < 0 ->
  Num.round64 q = match Num.round_pos (- q) with
                  | Some r => Fin (- r)
                  | None => NegInf
                  end.
Proof.
  intros H. unfold Num.round64.
  assert ((q ?= 0) = Lt) as -> by exact H.
  reflexivity.
Qed.

Lemma round64_zero q : q == 0 -> Num.round64 q = Fin 0.
Proof.
  intros H. unfold Num.round64.
  assert ((q ?= 0) = Eq) as -> by now apply Qeq_alt.
  reflexivity.
Qed.

(** Rounding keeps the sign. *)
Lemma round64_nonneg q :
  0 <= q ->
  Num.round64 q = PosInf \/ exists r, Num.round64 q = Fin r /\ 0 <= r.
Proof.
  intros H. destruct (Qlt_le_dec 0 q) as [Hpos|Hle].
  - rewrite (round64_pos q Hpos).
    pose proof (round_pos_rounded q) as R.
    destruct (Num.round_pos q) as [r|]; [right|now left].
    exists r. split; [reflexivity|]. destruct R as [-> _].
    now apply rounded_nonneg.
  - right. exists 0. split; [apply round64_zero; lra|lra].
Qed.

Lemma round64_nonpos q :
  q <= 0 ->
  Num.round64 q = NegInf \/ exists r, Num.round64 q = Fin r /\ r <= 0.
Proof.
  intros H. destruct (Qlt_le_dec q 0) as [Hneg|Hge].
  - rewrite (round64_neg q Hneg).
    pose proof (round_pos_rounded (- q)) as R.
    destruct (Num.round_pos (- q)) as [r|]; [right|now left].
    exists (- r). split; [reflexivity|]. destruct R as [R _].
    pose proof (rounded_nonneg (- q) ltac:(lra)). lra.
  - right. exists 0. split; [apply round64_zero; lra|lra].
Qed.

Lemma round64_ge c q :
  0 < c -> representable c -> c <= q ->
  Num.round64 q = PosInf \/ exists r, Num.round64 q = Fin r /\ c <= r.
Proof.
  intros Hc Hrep Hq. rewrite (round64_pos q) by lra.
  pose proof (round_pos_rounded q) as R.
  destruct (Num.round_pos q) as [r|]; [right|now left].
  exists r. split; [reflexivity|]. destruct R as [-> _].
  now apply rounded_ge.
Qed.

(** Below [2^1023] there is no overflow, and the error is at most half
    the spacing. *)
Lemma round64_error q :
  0 < q -> q < 2 ^ 1023 ->
  exists r, Num.round64 q = Fin r /\ 0 <= r
            /\ Qabs (r - q) <= (1 # 2) * 2 ^ spacingExp q.
Proof.
  intros Hq Hbig. rewrite (round64_pos q Hq).
  pose proof (round_pos_rounded q) as R.
  pose proof (rounded_error q) as Herr.
  pose proof (rounded_nonneg q Hq) as Hnn.
  assert (rounded q < 2 ^ 1024) as Hno.
  { apply Qabs_Qle_condition in Herr as [_ Hup].
    destruct (ilog2_spec q Hq) as [S1 S2].
    assert (Num.ilog2 q <= 1022)%Z as He.
    { destruct (Z_le_gt_dec (Num.ilog2 q) 1022) as [H|H]; [exact H|].
      pose proof (pow2_le 1023 (Num.ilog2 q) ltac:(lia)). lra. }
    assert (spacingExp q <= 970)%Z as Hp by (unfold spacingExp; lia).
    pose proof (pow2_le (spacingExp q) 970 Hp) as Hsp.
    assert (2 ^ 1023 + (1 # 2) * 2 ^ 970 < 2 ^ 1024) as Hc
      by (vm_compute; reflexivity).
    lra. }
  destruct (Num.round_pos q) as [r|].
  - destruct R as [R _]. exists r. split; [reflexivity|].
    rewrite R. split; assumption.
  - lra.
Qed.

Lemma Qred_Z z : Qred (inject_Z z) = inject_Z z.
Proof. apply Qcanon.Qred_identity. simpl. apply Z.gcd_1_r. Qed.

Lemma spacingExp_integer z :
  (0 < z < 2 ^ 53)%Z -> (spacingExp (inject_Z z) <= 0)%Z.
Proof.
  intros [H1 H2]. unfold spacingExp.
  assert (0 < inject_Z z) as Hq
    by (change 0 with (inject_Z 0); now rewrite <- Zlt_Qlt).
  destruct (ilog2_spec _ Hq) as [S1 _].
  assert (Num.ilog2 (inject_Z z) <= 52)%Z.
  { destruct (Z_le_gt_dec (Num.ilog2 (inject_Z z)) 52) as [H|H]; [exact H|].
    pose proof (pow2_le 53 (Num.ilog2 (inject_Z z)) ltac:(lia)) as Hp.
    rewrite (pow2_Z 53) in Hp by lia.
    assert (inject_Z z < inject_Z (2 ^ 53)) by now rewrite <- Zlt_Qlt.
    lra. }
  lia.
Qed.

Lemma representable_integer z :
  (0 < z < 2 ^ 53)%Z -> representable (inject_Z z).
Proof.
  intros H. pose proof (spacingExp_integer z H) as Hp.
  set (p := spacingExp (inject_Z z)) in *.
  exists (z * 2 ^ (- p))%Z. unfold representable. fold p.
  rewrite inject_Z_mult, <- (pow2_Z (- p)) by lia.
  rewrite <- Qmult_assoc, <- pow2_plus.
  replace (- p + p)%Z with 0%Z by lia. change (2 ^ 0) with 1. ring.
Qed.

(** Integers of magnitude below [2^53] are binary64 values. *)
Lemma round64_Z z :
  (Z.abs z < 2 ^ 53)%Z -> Num.round64 (inject_Z z) = Fin (inject_Z z).
Proof.
  intros Hz. destruct (Z.lt_trichotomy z 0) as [Hneg|[->|Hpos]].
  - assert (inject_Z z < 0) as Hq
      by (change 0 with (inject_Z 0); now rewrite <- Zlt_Qlt).
    rewrite (round64_neg _ Hq).
    assert (- inject_Z z == inject_Z (- z)) as E
      by (now rewrite inject_Z_opp).
    assert (0 < - inject_Z z) as Hq0 by lra.
    rewrite (round_pos_comp _ _ Hq0 E).
    pose proof (round_pos_rounded (inject_Z (- z))) as R.
    destruct (representable_integer (- z) ltac:(lia)) as [m Hm].
    pose proof (rounded_exact _ m Hm) as Hex.
    assert (0 < inject_Z (- z)) as Hq'
      by (change 0 with (inject_Z 0); rewrite <- Zlt_Qlt; lia).
    rewrite round_pos_unfold in *. cbv zeta in *.
    fold (spacingExp (inject_Z (- z))) in *.
    fold (rounded (inject_Z (- z))) in *.
    destruct (Qle_bool (2 ^ 1024) (rounded (inject_Z (- z)))) eqn:Ov.
    + exfalso. rewrite Hex in R.
      assert (inject_Z (- z) < inject_Z (2 ^ 53))
        by (rewrite <- Zlt_Qlt; lia).
      assert (inject_Z (2 ^ 53) < 2 ^ 1024) by (vm_compute; reflexivity).
      lra.
    + rewrite (Qred_complete _ _ Hex), Qred_Z. f_equal.
      unfold inject_Z, Qopp. simpl. now rewrite Z.opp_involutive.
  - reflexivity.
  - assert (0 < inject_Z z) as Hq
      by (change 0 with (inject_Z 0); now rewrite <- Zlt_Qlt).
    rewrite (round64_pos _ Hq).
    destruct (representable_integer z ltac:(lia)) as [m Hm].
    pose proof (rounded_exact _ m Hm) as Hex.
    pose proof (round_pos_rounded (inject_Z z)) as R.
    rewrite round_pos_unfold in *. cbv zeta in *.
    fold (spacingExp (inject_Z z)) in *. fold (rounded (inject_Z z)) in *.
    destruct (Qle_bool (2 ^ 1024) (rounded (inject_Z z))) eqn:Ov.
    + exfalso. rewrite Hex in R.
      assert (inject_Z z < inject_Z (2 ^ 53)) by (rewrite <- Zlt_Qlt; lia).
      assert (inject_Z (2 ^ 53) < 2 ^ 1024) by (vm_compute; reflexivity).
      lra.
    + now rewrite (Qred_complete _ _ Hex), Qred_Z.
Qed.

Local Open Scope string_scope.
Local Open Scope list_scope.

(* ------------------------------------------------------------------ *)
(** ** Derived status *)

(** C1. The badge of a record is 'In Maintenance' whenever its status is
    "In Maintenance", whatever the mileage fields; otherwise 'Service Due'
    whenever mileage >= nextServiceMileage; otherwise 'Active'.  Two
    records that agree on status, mileage and nextServiceMileage get the
    same badge. *)
Theorem getStatusBadge_cases (v : vehicle) :
  (status v = "In Maintenance" -> getStatusBadge v = Maintenance)
  /\ (status v <> "In Maintenance" ->
      Num.ge (mileage v) (nextServiceMileage v) = true ->
      getStatusBadge v = ServiceDue)
  /\ (status v <> "In Maintenance" ->
      Num.ge (mileage v) (nextServiceMileage v) = false ->
      getStatusBadge v = Active)
  /\ (forall w, status w = status v -> mileage w = mileage v ->
      nextServiceMileage w = nextServiceMileage v ->
      getStatusBadge w = getStatusBadge v).
Proof.
  unfold getStatusBadge. repeat split.
  - intros ->. reflexivity.
  - intros Hs Hge. apply String.eqb_neq in Hs. now rewrite Hs, Hge.
  - intros Hs Hge. apply String.eqb_neq in Hs. now rewrite Hs, Hge.
  - intros w -> -> ->. reflexivity.
Qed.

(** Scenario B on the code: a record in maintenance far from its next
    service, and the overdue active record of scenario A. *)
Lemma getStatusBadge_cases_witness :
  getStatusBadge
    (mkVehicle (Some "b") "m" (Some "x") (VStr "") "v" (Num.of_Z 100)
       (Num.of_Z 1000000) "Diesel" "In Maintenance" None) = Maintenance
  /\ getStatusBadge
    (mkVehicle (Some "a") "m" (Some "x") (VStr "") "v" (Num.of_Z 85000)
       (Num.of_Z 80000) "Diesel" "Active" None) = ServiceDue.
Proof.
  split.
  - apply (proj1 (getStatusBadge_cases _)). reflexivity.
  - apply (proj1 (proj2 (getStatusBadge_cases _))).
    + simpl. discriminate.
    + reflexivity.
Defined.

(* ------------------------------------------------------------------ *)
(** ** Aggregate statistics: the two counters *)

Lemma isActive_isServiceDue v : isActive v = true -> isServiceDue v = false.
Proof.
  unfold isActive, isServiceDue. intros H.
  apply andb_true_iff in H as [Hs Hlt].
  rewrite (lt_ge_exclusive _ _ Hlt). simpl.
  apply String.eqb_eq in Hs. rewrite Hs. reflexivity.
Qed.

Lemma counted_iff v : counted v <-> isActive v || isServiceDue v = true.
Proof.
  unfold counted, isActive, isServiceDue.
  rewrite !orb_true_iff, andb_true_iff, !String.eqb_eq. tauto.
Qed.

Lemma counters_sum vs :
  (activeVehicles vs + serviceDue vs
   = List.length (filter (fun v => isActive v || isServiceDue v) vs))%nat.
Proof.
  unfold activeVehicles, serviceDue.
  induction vs as [|v vs IH]; simpl; [reflexivity|].
  destruct (isActive v) eqn:Ha.
  - rewrite (isActive_isServiceDue v Ha). simpl. lia.
  - destruct (isServiceDue v); simpl; lia.
Qed.

Lemma filter_length_full {A} (f : A -> bool) (l : list A) :
  List.length (filter f l) = List.length l <-> Forall (fun x => f x = true) l.
Proof.
  induction l as [|x l IH]; simpl.
  - split; auto.
  - pose proof (filter_length_le f l) as Hle.
    destruct (f x) eqn:Hx; simpl.
    + split.
      * intros H. constructor; [assumption|]. apply IH. lia.
      * intros H. inversion H; subst. f_equal. now apply IH.
    + split.
      * intros H. lia.
      * intros H. inversion H; subst. congruence.
Qed.

(** C9 (as the code has it). No record is counted by both aggregates, so
    activeVehicles + serviceDue <= totalVehicles; the two sides are equal
    exactly when every record is counted by one of them, that is, its
    status is "In Maintenance", or its mileage >= nextServiceMileage, or
    its status is "Active" with mileage < nextServiceMileage. *)
Theorem counters_disjoint_and_bounded (vs : list vehicle) :
  (forall v, isActive v && isServiceDue v = false)
  /\ (activeVehicles vs + serviceDue vs <= totalVehicles vs)%nat
  /\ ((activeVehicles vs + serviceDue vs = totalVehicles vs)%nat
      <-> Forall counted vs).
Proof.
  split; [|split].
  - intros v. destruct (isActive v) eqn:Ha; [|reflexivity].
    now rewrite (isActive_isServiceDue v Ha).
  - rewrite counters_sum. apply filter_length_le.
  - rewrite counters_sum. unfold totalVehicles.
    rewrite filter_length_full. rewrite !Forall_forall.
    split; intros H v Hv; apply counted_iff; auto.
Qed.

(** C9 as stated fails: one record whose status is neither "Active" nor
    "In Maintenance" and whose mileage has reached nextServiceMileage is
    counted by serviceDue, so the sum equals the total. *)
Lemma counters_equality_other_status :
  let vs := [mkVehicle (Some "r") "m" (Some "x") (VStr "") "v"
               (Num.of_Z 10) (Num.of_Z 5) "Diesel" "Retired" None] in
  (activeVehicles vs + serviceDue vs = totalVehicles vs)%nat
  /\ ~ Forall (fun v => status v = "Active" \/ status v = "In Maintenance") vs.
Proof.
  split.
  - reflexivity.
  - intros H. inversion H as [|? ? [Hs|Hs] _]; simpl in Hs; discriminate.
Qed.

(* ------------------------------------------------------------------ *)
(** ** The listener: a delivery that cannot be decoded *)

Lemma mapDocs_throws docs :
  mapDocs docs = None <-> exists d, In d docs /\ doc_data d = None.
Proof.
  induction docs as [|d rest IH]; simpl.
  - split; [discriminate|]. intros (d & [] & _).
  - unfold spread. destruct (doc_data d) as [f|] eqn:Hd.
    + destruct (mapDocs rest) as [vs|].
      * split; [discriminate|].
        intros (d' & [<-|Hin] & Hnone); [congruence|].
        assert (Some vs = None) by (apply IH; eauto). discriminate.
      * split; [|reflexivity]. intros _.
        destruct (proj1 IH eq_refl) as (d' & Hin & Hnone). eauto.
    + split; [|reflexivity]. intros _. exists d. auto.
Qed.

(** C6. When [data()] throws for some document of a delivery, the
    callback surfaces the one error "Could not load fleet data." and the
    vehicles held before are left exactly as they were. *)
Theorem onSnapshot_decode_failure
  (localeCompare : string -> string -> Z)
  (docs : list docSnapshot) (s : state) (d : docSnapshot) :
  In d docs -> doc_data d = None ->
  vehicles (fst (onSnapshotNext localeCompare docs s)) = vehicles s
  /\ error (fst (onSnapshotNext localeCompare docs s))
     = Some "Could not load fleet data."
  /\ snd (onSnapshotNext localeCompare docs s)
     = [SetError (Some "Could not load fleet data.")].
Proof.
  intros Hin Hd. unfold onSnapshotNext.
  assert (mapDocs docs = None) as -> by (apply mapDocs_throws; eauto).
  simpl. auto.
Qed.

Lemma onSnapshot_decode_failure_witness :
  let held := [mkVehicle (Some "k") "Ford" (Some "Transit") (VStr "")
                 "V" (Num.of_Z 1) (Num.of_Z 2) "Diesel" "Active" None] in
  let s := setVehicles held initialState in
  let docs := [mkDoc "a" (Some defaultVehicle); mkDoc "b" None] in
  vehicles (fst (onSnapshotNext (fun _ _ => 0%Z) docs s)) = held.
Proof.
  intros held s docs.
  apply (onSnapshot_decode_failure (fun _ _ => 0%Z) docs s (mkDoc "b" None)).
  - simpl. auto.
  - reflexivity.
Defined.

(* ------------------------------------------------------------------ *)
(** ** Submitting the form *)

Section Submission.

Variable rejects : collection -> vehicle -> bool.
Variable newId : collection -> string.

Lemma nonempty_eqb s : negb (nonempty s) = (s =? "")%string.
Proof. unfold nonempty. apply negb_involutive. Qed.

(** The handler and the validator of the specification agree: a failure
    of [validate] is the only effect, an acceptance issues the
    insertion. *)
Lemma handleAddVehicle_validate s c :
  notReady s = false ->
  match validate (newVehicle s) with
  | Some e =>
      handleAddVehicle rejects newId s c
      = (setError (Some (message e)) s, c, [SetError (Some (message e))])
  | None =>
      exists rest,
        snd (handleAddVehicle rejects newId s c)
        = AddDoc (payloadOf (newVehicle s)) :: rest
  end.
Proof.
  intros Hready. unfold handleAddVehicle, validate. rewrite Hready.
  rewrite !nonempty_eqb.
  destruct ((make (newVehicle s) =? "")%string
            || (or_empty (model (newVehicle s)) =? "")%string
            || (vin (newVehicle s) =? "")%string); [reflexivity|].
  destruct (Num.gt (mileage (newVehicle s))
              (nextServiceMileage (newVehicle s))); [reflexivity|].
  destruct (addDoc rejects newId c (payloadOf (newVehicle s)));
    simpl; eauto.
Qed.

(** C4. With the connection ready, the rules are checked in a fixed
    order: a draft with an empty make, model or vin fails with
    MissingRequiredField whatever its mileage fields are; a draft with
    the three present and mileage > nextServiceMileage fails with
    MileageInversion; and on either failure the only effect is the error
    message: no insertion is issued, the collection and the vehicles
    held are unchanged. *)
Theorem handleAddVehicle_rule_order (s : state) (c : collection) :
  notReady s = false ->
  let draft := newVehicle s in
  let result := handleAddVehicle rejects newId s c in
  (make draft = "" \/ or_empty (model draft) = "" \/ vin draft = "" ->
   error (fst (fst result)) = Some (message MissingRequiredField))
  /\ (make draft <> "" -> or_empty (model draft) <> "" -> vin draft <> "" ->
      Num.gt (mileage draft) (nextServiceMileage draft) = true ->
      error (fst (fst result)) = Some (message MileageInversion))
  /\ (make draft = "" \/ or_empty (model draft) = "" \/ vin draft = ""
      \/ Num.gt (mileage draft) (nextServiceMileage draft) = true ->
      filter isAddDoc (snd result) = []
      /\ (exists e, snd result = [SetError (Some (message e))])
      /\ snd (fst result) = c
      /\ vehicles (fst (fst result)) = vehicles s).
Proof.
  intros Hready draft result.
  pose proof (handleAddVehicle_validate s c Hready) as H.
  fold draft in H. fold result in H.
  unfold validate in H.
  destruct ((make draft =? "")%string
            || (or_empty (model draft) =? "")%string
            || (vin draft =? "")%string) eqn:Hreq.
  - rewrite H. simpl. split; [reflexivity|]. split.
    + intros H1 H2 H3. apply String.eqb_neq in H1, H2, H3.
      rewrite H1, H2, H3 in Hreq. discriminate.
    + intros _. repeat split. now exists MissingRequiredField.
  - rewrite !orb_false_iff, !String.eqb_neq in Hreq.
    destruct Hreq as [[H1 H2] H3].
    split; [tauto|].
    destruct (Num.gt (mileage draft) (nextServiceMileage draft)) eqn:Hgt.
    + rewrite H. simpl. split; [reflexivity|].
      intros _. repeat split. now exists MileageInversion.
    + split; [discriminate|].
      intros [?|[?|[?|?]]]; try contradiction; discriminate.
Qed.

End Submission.

(** Scenarios D and E on the code, with a draft that breaks both rules
    for D. *)
Lemma handleAddVehicle_rule_order_witness :
  let ready := mkState true (Some "u") [] false None true in
  let store_ok := fun (_ : collection) (_ : vehicle) => false in
  let store_id := fun (_ : collection) => "id" in
  error (fst (fst (handleAddVehicle store_ok store_id
           (ready (mkVehicle None "" (Some "X") (VStr "") "123"
                     (Num.of_Z 100) (Num.of_Z 50) "Diesel" "Active" None))
           [])))
  = Some "Make, Model, and VIN are required."
  /\ error (fst (fst (handleAddVehicle store_ok store_id
           (ready (mkVehicle None "A" (Some "B") (VStr "") "C"
                     (Num.of_Z 100) (Num.of_Z 50) "Diesel" "Active" None))
           [])))
  = Some "Current Mileage cannot be higher than Next Service Mileage.".
Proof.
  intros ready store_ok store_id. split.
  - apply (proj1 (handleAddVehicle_rule_order store_ok store_id
             (ready (mkVehicle None "" (Some "X") (VStr "") "123"
                       (Num.of_Z 100) (Num.of_Z 50) "Diesel" "Active" None))
             [] eq_refl)).
    left. reflexivity.
  - apply (proj1 (proj2 (handleAddVehicle_rule_order store_ok store_id
             (ready (mkVehicle None "A" (Some "B") (VStr "") "C"
                       (Num.of_Z 100) (Num.of_Z 50) "Diesel" "Active" None))
             [] eq_refl)));
      simpl; (discriminate || reflexivity).
Defined.

(* ------------------------------------------------------------------ *)
(** ** Drafts of the form *)



Lemma edited_notReady edits s : notReady (edited edits s) = notReady s.
Proof.
  unfold edited. revert s.
  induction edits as [|e edits IH]; intros s; simpl; [reflexivity|].
  now rewrite IH.
Qed.

Section EqualMileage.

Variable rejects : collection -> vehicle -> bool.
Variable newId : collection -> string.


End EqualMileage.


(* ------------------------------------------------------------------ *)
(** ** Bulk seeding *)

Section Seeding.

Variable rejects : collection -> vehicle -> bool.
Variable newId : collection -> string.

Lemma allAccepted_tail c a pre :
  allAccepted rejects newId c (a :: pre) ->
  rejects c (payloadOf a) = false
  /\ allAccepted rejects newId (c ++ [stored newId c (payloadOf a)]) pre.
Proof.
  intros H. split.
  - apply (H [] a pre). reflexivity.
  - intros p1 x p2 ->. apply (H (a :: p1) x p2). reflexivity.
Qed.

Lemma addAll_first_failure pre v post c :
  allAccepted rejects newId c pre ->
  rejects (persisted newId c (map payloadOf pre)) (payloadOf v) = true ->
  addAll rejects newId (pre ++ v :: post) c
  = (persisted newId c (map payloadOf pre),
     map AddDoc (map payloadOf (pre ++ [v])),
     false).
Proof.
  revert c. induction pre as [|a pre IH]; intros c Hacc Hrej; simpl in *.
  - unfold addDoc. rewrite Hrej. reflexivity.
  - apply allAccepted_tail in Hacc as [Ha Hacc].
    unfold addDoc at 1. rewrite Ha. fold (stored newId c (payloadOf a)).
    rewrite (IH _ Hacc Hrej). reflexivity.
Qed.

Lemma persisted_extends c payloads :
  exists docs,
    persisted newId c payloads = c ++ docs
    /\ Forall2 (fun p d => exists i t,
                  d = set_createdAt (Some (At t)) (set_id (Some i) p))
         payloads docs.
Proof.
  revert c. induction payloads as [|p payloads IH]; intros c; simpl.
  - exists []. rewrite app_nil_r. auto.
  - destruct (IH (c ++ [stored newId c p])) as (docs & -> & HF).
    exists (stored newId c p :: docs). rewrite <- app_assoc. split; auto.
    constructor; auto. unfold stored. eauto.
Qed.

Lemma filter_isAddDoc_calls ps :
  filter isAddDoc (map AddDoc ps) = map AddDoc ps
  /\ filter isSetError (map AddDoc ps) = [].
Proof. induction ps as [|p ps [IH1 IH2]]; simpl; [auto|]. now rewrite IH1. Qed.

Lemma addAll_all_accepted batch c :
  allAccepted rejects newId c batch ->
  addAll rejects newId batch c
  = (persisted newId c (map payloadOf batch),
     map AddDoc (map payloadOf batch),
     true).
Proof.
  revert c. induction batch as [|a batch IH]; intros c Hacc; simpl.
  - reflexivity.
  - apply allAccepted_tail in Hacc as [Ha Hacc].
    unfold addDoc at 1. rewrite Ha. fold (stored newId c (payloadOf a)).
    rewrite (IH _ Hacc). reflexivity.
Qed.

(** C5. Seeding inserts the elements of the batch one after the other,
    each into the collection the previous insertion left.  If the
    insertions succeed for the elements of [pre] and the next one, [v],
    fails, then the collection is the initial one followed by one
    document per element of [pre] (nothing is rolled back), the
    insertions issued are those of [pre] and of [v] in order (none for
    the rest of the batch), and exactly one error is surfaced.  If none
    fails, every element is inserted, in order. *)
Theorem seeding_aborts_at_first_failure
  (pre : list vehicle) (s : state) (c : collection) :
  notReady s = false ->
  allAccepted rejects newId c pre ->
  (forall v post,
     rejects (persisted newId c (map payloadOf pre)) (payloadOf v) = true ->
     let result := loadVehicles rejects newId (pre ++ v :: post) s c in
     snd result
     = map AddDoc (map payloadOf pre) ++ [AddDoc (payloadOf v)]
       ++ [SetError (Some "Failed to load sample data. Check console.")]
     /\ filter isAddDoc (snd result)
        = map AddDoc (map payloadOf (pre ++ [v]))
     /\ filter isSetError (snd result)
        = [SetError (Some "Failed to load sample data. Check console.")]
     /\ (exists docs,
           snd (fst result) = c ++ docs
           /\ Forall2 (fun p d => exists i t,
                         d = set_createdAt (Some (At t)) (set_id (Some i) p))
                (map payloadOf pre) docs)
     /\ error (fst (fst result))
        = Some "Failed to load sample data. Check console."
     /\ vehicles (fst (fst result)) = vehicles s)
  /\ (let result := loadVehicles rejects newId pre s c in
      filter isAddDoc (snd result) = map AddDoc (map payloadOf pre)
      /\ snd (fst result) = persisted newId c (map payloadOf pre)
      /\ error (fst (fst result)) = Some "Sample data loaded successfully!").
Proof.
  intros Hready Hacc. split.
  - intros v post Hrej result. subst result. unfold loadVehicles.
    rewrite Hready, (addAll_first_failure pre v post c Hacc Hrej). simpl.
    rewrite !map_app. simpl.
    destruct (filter_isAddDoc_calls (map payloadOf pre)) as [F1 F2].
    repeat split.
    + now rewrite <- app_assoc.
    + rewrite !filter_app, F1. simpl. now rewrite app_nil_r.
    + rewrite !filter_app, F2. reflexivity.
    + apply persisted_extends.
  - unfold loadVehicles.
    rewrite Hready, (addAll_all_accepted pre c Hacc). simpl.
    destruct (filter_isAddDoc_calls (map payloadOf pre)) as [F1 _].
    repeat split. rewrite filter_app, F1. simpl. now rewrite app_nil_r.
Qed.

End Seeding.

(** Scenario F: the four sample vehicles are seeded into an empty
    collection and the store rejects the third. *)
Lemma seeding_aborts_at_first_failure_witness :
  let ready := mkState true (Some "u") [] false None false defaultVehicle in
  let store := fun (_ : collection) (p : vehicle) =>
                 (make p =? "Freightliner")%string in
  let store_id := fun (c : collection) => "doc" in
  let result := handleLoadSampleData store store_id ready [] in
  filter isAddDoc (snd result)
  = map AddDoc (map payloadOf (firstn 3 sampleVehicles))
  /\ filter isSetError (snd result)
     = [SetError (Some "Failed to load sample data. Check console.")]
  /\ List.length (snd (fst result)) = 2%nat.
Proof.
  intros ready store store_id result.
  assert (allAccepted store store_id [] (firstn 2 sampleVehicles)) as Hacc.
  { intros p1 x p2 E.
    destruct p1 as [|a [|b [|? ?]]]; simpl in E; inversion E; subst;
      reflexivity. }
  destruct (proj1 (seeding_aborts_at_first_failure store store_id
                     (firstn 2 sampleVehicles) ready [] eq_refl Hacc)
              (nth 2 sampleVehicles defaultVehicle)
              (skipn 3 sampleVehicles) eq_refl)
    as (_ & H2 & H3 & _).
  split; [exact H2|]. split; [exact H3|]. reflexivity.
Defined.

(* ------------------------------------------------------------------ *)
(** ** Stable sorting with a consistent comparator *)

Section SortFacts.

Context {A : Type}.
Variable cmp : A -> A -> Z.

(** A consistent comparator: swapping the arguments flips the sign, and
    "not after" is transitive. *)
Hypothesis cmp_sym : forall a b, Z.sgn (cmp a b) = (- Z.sgn (cmp b a))%Z.
Hypothesis cmp_trans :
  forall a b c, (cmp a b <= 0 -> cmp b c <= 0 -> cmp a c <= 0)%Z.

Lemma cmp_flip a b : (0 < cmp a b)%Z -> (cmp b a < 0)%Z.
Proof. pose proof (cmp_sym a b). lia. Qed.

Lemma cmp_equiv z x y :
  cmp z x = 0%Z -> cmp z y = 0%Z -> (cmp x y <= 0)%Z.
Proof.
  intros Hx Hy. apply (cmp_trans x z y); [|lia].
  pose proof (cmp_sym z x). lia.
Qed.

Lemma insert_perm x l : Permutation (x :: l) (insert cmp x l).
Proof.
  induction l as [|y l IH]; simpl; [reflexivity|].
  destruct (cmp x y <=? 0)%Z; [reflexivity|].
  rewrite perm_swap. now constructor.
Qed.

Lemma sort_perm l : Permutation l (sort cmp l).
Proof.
  induction l as [|x l IH]; simpl; [constructor|].
  rewrite <- insert_perm. now constructor.
Qed.

Lemma insert_sorted x l :
  StronglySorted (fun a b => (cmp a b <= 0)%Z) l -> StronglySorted (fun a b => (cmp a b <= 0)%Z) (insert cmp x l).
Proof.
  induction 1 as [|y l Hs IH Hy]; simpl.
  - repeat constructor.
  - destruct (cmp x y <=? 0)%Z eqn:E.
    + apply Z.leb_le in E. constructor; [now constructor|].
      constructor; [exact E|].
      eapply Forall_impl; [|exact Hy]. intros z Hz.
      exact (cmp_trans x y z E Hz).
    + apply Z.leb_gt in E. constructor; [exact IH|].
      eapply Permutation_Forall; [apply insert_perm|].
      constructor; [|exact Hy].
      pose proof (cmp_flip x y E). simpl. lia.
Qed.

Lemma sort_sorted l : StronglySorted (fun a b => (cmp a b <= 0)%Z) (sort cmp l).
Proof.
  induction l as [|x l IH]; simpl; [constructor|]. now apply insert_sorted.
Qed.

Lemma insert_filter_equal z x l :
  filter (fun y => (cmp z y =? 0)%Z) (insert cmp x l)
  = filter (fun y => (cmp z y =? 0)%Z) (x :: l).
Proof.
  induction l as [|y l IH]; simpl; [reflexivity|].
  destruct (cmp x y <=? 0)%Z eqn:E; [reflexivity|].
  apply Z.leb_gt in E. simpl in *. rewrite IH.
  destruct (cmp z x =? 0)%Z eqn:Ex; [|reflexivity].
  destruct (cmp z y =? 0)%Z eqn:Ey; [|reflexivity].
  apply Z.eqb_eq in Ex, Ey. pose proof (cmp_equiv z x y Ex Ey). lia.
Qed.

Lemma sort_stable z l :
  filter (fun y => (cmp z y =? 0)%Z) (sort cmp l)
  = filter (fun y => (cmp z y =? 0)%Z) l.
Proof.
  induction l as [|x l IH]; simpl; [reflexivity|].
  rewrite insert_filter_equal. simpl. now rewrite IH.
Qed.

Lemma sorted_nth l :
  StronglySorted (fun a b => (cmp a b <= 0)%Z) l ->
  forall i j a b, (i < j)%nat ->
    nth_error l i = Some a -> nth_error l j = Some b -> (cmp a b <= 0)%Z.
Proof.
  induction 1 as [|x l Hs IH Hx]; intros i j a b Hij Ha Hb.
  - destruct i; discriminate.
  - destruct j as [|j]; [lia|]. simpl in Hb.
    destruct i as [|i]; simpl in Ha.
    + injection Ha as <-. rewrite Forall_forall in Hx.
      apply Hx. eapply nth_error_In; eauto.
    + apply (IH i j); auto. lia.
Qed.

Lemma cmp_refl a : cmp a a = 0%Z.
Proof. pose proof (cmp_sym a a). lia. Qed.

Lemma filter_head_In (p : A -> bool) l x r :
  filter p l = x :: r -> In x l.
Proof.
  intros H. apply (proj1 (filter_In p x l)). rewrite H. now left.
Qed.

(** Two arrangements that are both ordered by [cmp] and list every class
    of equal elements in the same order are the same list: the result of
    a stable sort does not depend on the algorithm. *)
Lemma sorted_stable_unique l1 : forall l2,
  StronglySorted (fun a b => (cmp a b <= 0)%Z) l1 ->
  StronglySorted (fun a b => (cmp a b <= 0)%Z) l2 ->
  (forall z, filter (fun y => (cmp z y =? 0)%Z) l1
             = filter (fun y => (cmp z y =? 0)%Z) l2) ->
  l1 = l2.
Proof.
  induction l1 as [|x t1 IH]; intros [|y t2] S1 S2 H.
  - reflexivity.
  - specialize (H y). simpl in H. rewrite cmp_refl in H. discriminate.
  - specialize (H x). simpl in H. rewrite cmp_refl in H. discriminate.
  - inversion S1 as [|? ? S1' F1]; inversion S2 as [|? ? S2' F2]; subst.
    rewrite Forall_forall in F1, F2.
    assert (x = y) as ->.
    { pose proof (H x) as Hx. pose proof (H y) as Hy. simpl in Hx, Hy.
      rewrite cmp_refl in Hx, Hy. simpl in Hx, Hy.
      destruct (cmp x y =? 0)%Z eqn:Exy; [now injection Hx|].
      apply Z.eqb_neq in Exy.
      assert ((cmp y x =? 0)%Z = false) as Eyx.
      { apply Z.eqb_neq. pose proof (cmp_sym x y). lia. }
      rewrite Eyx in Hy.
      symmetry in Hx. apply filter_head_In, F2 in Hx.
      apply filter_head_In, F1 in Hy.
      pose proof (cmp_sym x y). lia. }
    f_equal. apply IH; auto.
    intros z. specialize (H z). simpl in H.
    destruct (cmp z y =? 0)%Z; [now injection H|exact H].
Qed.

Lemma sort_unique l l' :
  StronglySorted (fun a b => (cmp a b <= 0)%Z) l' ->
  (forall z, filter (fun y => (cmp z y =? 0)%Z) l'
             = filter (fun y => (cmp z y =? 0)%Z) l) ->
  l' = sort cmp l.
Proof.
  intros S H. apply sorted_stable_unique; [exact S|apply sort_sorted|].
  intros z. now rewrite sort_stable.
Qed.

End SortFacts.

(* ------------------------------------------------------------------ *)
(** ** The reconciled order *)

Lemma urgency_urgent v : urgency v = if urgent v then 0%Z else 1%Z.
Proof.
  unfold urgency, urgent, getStatusBadge.
  destruct (status v =? "In Maintenance")%string; simpl; [reflexivity|].
  destruct (Num.ge (mileage v) (nextServiceMileage v)); reflexivity.
Qed.

Section Reconciliation.

Variable localeCompare : string -> string -> Z.

(** [localeCompare] orders text consistently. *)
Hypothesis localeCompare_sym :
  forall a b, Z.sgn (localeCompare a b) = (- Z.sgn (localeCompare b a))%Z.
Hypothesis localeCompare_trans :
  forall a b c, (localeCompare a b <= 0 -> localeCompare b c <= 0 ->
                 localeCompare a c <= 0)%Z.

Lemma compareVehicles_sym a b :
  Z.sgn (compareVehicles localeCompare a b)
  = (- Z.sgn (compareVehicles localeCompare b a))%Z.
Proof.
  unfold compareVehicles. rewrite !urgency_urgent.
  destruct (urgent a), (urgent b); simpl; auto.
Qed.

Lemma compareVehicles_trans a b c :
  (compareVehicles localeCompare a b <= 0 ->
   compareVehicles localeCompare b c <= 0 ->
   compareVehicles localeCompare a c <= 0)%Z.
Proof.
  unfold compareVehicles. rewrite !urgency_urgent.
  destruct (urgent a), (urgent b), (urgent c); simpl; try lia;
    apply localeCompare_trans.
Qed.

Lemma compareVehicles_order a b :
  (compareVehicles localeCompare a b <= 0)%Z ->
  (urgent b = true -> urgent a = true)
  /\ (urgent a = urgent b ->
      (localeCompare (or_empty (model a)) (or_empty (model b)) <= 0)%Z).
Proof.
  unfold compareVehicles. rewrite !urgency_urgent.
  destruct (urgent a), (urgent b); simpl; intros H; split; auto;
    try discriminate; lia.
Qed.

(** C2. When a delivery decodes, the vehicles held afterwards are a
    rearrangement of the decoded records in which no record with derived
    status 'Active' comes before one with 'In Maintenance' or 'Service
    Due'; two records of the same bucket are in non-decreasing order of
    model (a missing model read as the empty text) under localeCompare;
    and the records that compare equal to any given record appear in the
    same order as in the input (the sort is stable). *)
Theorem reconciled_order
  (docs : list docSnapshot) (fetched : list vehicle) (s : state) :
  mapDocs docs = Some fetched ->
  let view := vehicles (fst (onSnapshotNext localeCompare docs s)) in
  Permutation fetched view
  /\ (forall i j a b, (i < j)%nat ->
        nth_error view i = Some a -> nth_error view j = Some b ->
        (urgent b = true -> urgent a = true)
        /\ (urgent a = urgent b ->
            (localeCompare (or_empty (model a)) (or_empty (model b))
             <= 0)%Z))
  /\ (forall x,
        filter (fun y => (compareVehicles localeCompare x y =? 0)%Z) view
        = filter (fun y => (compareVehicles localeCompare x y =? 0)%Z)
            fetched).
Proof.
  intros Hdec view. subst view. unfold onSnapshotNext. rewrite Hdec. simpl.
  split; [|split].
  - apply sort_perm.
  - intros i j a b Hij Ha Hb. apply compareVehicles_order.
    apply (sorted_nth (compareVehicles localeCompare) _
             (sort_sorted _ compareVehicles_sym compareVehicles_trans fetched)
             i j a b Hij Ha Hb).
  - intros x.
    apply (sort_stable _ compareVehicles_sym compareVehicles_trans).
Qed.

End Reconciliation.

Lemma codeCompare_sym a b :
  Z.sgn (codeCompare a b) = (- Z.sgn (codeCompare b a))%Z.
Proof.
  unfold codeCompare. rewrite (String.compare_antisym b a).
  destruct (String.compare a b); reflexivity.
Qed.

Lemma codeCompare_trans a b c :
  (codeCompare a b <= 0 -> codeCompare b c <= 0 -> codeCompare a c <= 0)%Z.
Proof.
  unfold codeCompare.
  destruct (String.compare a b) eqn:Hab; try lia;
    destruct (String.compare b c) eqn:Hbc; try lia; intros _ _.
  - apply String.compare_eq_iff in Hab, Hbc. subst.
    assert (String.compare c c = Eq) as ->
      by (apply OrderedTypeEx.String_as_OT.cmp_eq; reflexivity).
    lia.
  - apply String.compare_eq_iff in Hab. subst. rewrite Hbc. lia.
  - apply String.compare_eq_iff in Hbc. subst. rewrite Hab. lia.
  - apply OrderedTypeEx.String_as_OT.cmp_lt in Hab, Hbc.
    pose proof (OrderedTypeEx.String_as_OT.lt_trans _ _ _ Hab Hbc) as H.
    apply OrderedTypeEx.String_as_OT.cmp_lt in H.
    unfold OrderedTypeEx.String_as_OT.cmp in H. rewrite H. lia.
Qed.

(** The four sample vehicles, delivered in the order they were seeded:
    the two urgent ones come first, each bucket by model. *)
Lemma reconciled_order_witness :
  let docs := map (fun v => mkDoc (vin v) (Some v)) sampleVehicles in
  map model
    (vehicles (fst (onSnapshotNext codeCompare docs initialState)))
  = [Some "Cascadia 126"; Some "Transit 350"; Some "Model 3"; Some "Tacoma"]
  /\ Permutation
       (map (fun v => set_id (Some (vin v)) v) sampleVehicles)
       (vehicles (fst (onSnapshotNext codeCompare docs initialState))).
Proof.
  intros docs. split; [reflexivity|].
  apply (proj1 (reconciled_order codeCompare codeCompare_sym
                  codeCompare_trans docs _ initialState eq_refl)).
Defined.

(* ------------------------------------------------------------------ *)
(** ** Average mileage *)

Lemma nearest_close x :
  0 <= x ->
  (0 <= Num.nearest x)%Z /\ Qabs (inject_Z (Num.nearest x) - x) <= 1 # 2.
Proof.
  intros Hx. unfold Num.nearest.
  pose proof (Qfloor_le (x + (1 # 2))) as Hlo.
  pose proof (Qlt_floor (x + (1 # 2))) as Hhi.
  rewrite inject_Z_plus in Hhi. change (inject_Z 1) with 1 in Hhi.
  split.
  - assert (Qfloor 0 <= Qfloor (x + (1 # 2)))%Z as H
      by (apply Qfloor_resp_le; lra).
    exact H.
  - apply Qabs_Qle_condition. split; lra.
Qed.

Lemma nearest_small x : 0 <= x -> x < 1 # 2 -> Num.nearest x = 0%Z.
Proof.
  intros H0 H1. unfold Num.nearest.
  pose proof (Qfloor_le (x + (1 # 2))) as Hlo.
  pose proof (Qlt_floor (x + (1 # 2))) as Hhi.
  rewrite inject_Z_plus in Hhi. change (inject_Z 1) with 1 in Hhi.
  assert (inject_Z (Qfloor (x + (1 # 2))) < inject_Z 1) as Ha
    by (change (inject_Z 1) with 1; lra).
  assert (inject_Z (-1) < inject_Z (Qfloor (x + (1 # 2)))) as Hb
    by (change (inject_Z (-1)) with (-1 # 1); lra).
  rewrite <- Zlt_Qlt in Ha, Hb. lia.
Qed.

Lemma milesOf_nonneg v : wholeMiles v -> (0 <= milesOf v)%Z.
Proof.
  unfold milesOf. intros [-> | (z & Hz & ->)]; [lia|].
  unfold Num.of_Z. now rewrite Qfloor_Z.
Qed.

Lemma sumMiles_nonneg vs : Forall wholeMiles vs -> (0 <= sumMiles vs)%Z.
Proof.
  unfold sumMiles. induction 1 as [|v vs Hv _ IH]; simpl; [lia|].
  pose proof (milesOf_nonneg v Hv). lia.
Qed.

Lemma or_zero_whole v :
  wholeMiles v -> Num.or (mileage v) Num.zero = Num.of_Z (milesOf v).
Proof.
  unfold milesOf. intros [-> | (z & Hz & ->)]; [reflexivity|].
  unfold Num.or, Num.truthy, Num.of_Z, Num.zero. rewrite Qfloor_Z.
  destruct (Qeq_bool (inject_Z z) 0) eqn:E; simpl; [|reflexivity].
  apply Qeq_bool_eq in E.
  assert (z = 0%Z) as -> by (now apply inject_Z_injective).
  reflexivity.
Qed.

Lemma sum_whole vs : forall s,
  (0 <= s)%Z ->
  Forall wholeMiles vs ->
  (s + sumMiles vs < 2 ^ 53)%Z ->
  fold_left (fun sum v => Num.add sum (Num.or (mileage v) Num.zero))
    vs (Num.of_Z s) = Num.of_Z (s + sumMiles vs).
Proof.
  induction vs as [|v vs IH]; intros s Hs Hall Hlt.
  - simpl. unfold sumMiles. simpl. now rewrite Z.add_0_r.
  - inversion Hall as [|? ? Hv Hrest]; subst.
    pose proof (milesOf_nonneg v Hv) as Hm.
    pose proof (sumMiles_nonneg vs Hrest) as Hr.
    assert (sumMiles (v :: vs) = milesOf v + sumMiles vs)%Z as E
      by reflexivity.
    rewrite E in *. cbn [fold_left].
    rewrite (or_zero_whole v Hv).
    assert (Num.add (Num.of_Z s) (Num.of_Z (milesOf v))
            = Num.of_Z (s + milesOf v)) as ->.
    { unfold Num.add, Num.of_Z.
      rewrite (round64_comp _ (inject_Z (s + milesOf v)))
        by (now rewrite inject_Z_plus).
      apply round64_Z. rewrite Z.abs_eq by lia. lia. }
    rewrite IH; [f_equal; lia | lia | assumption | lia].
Qed.

Lemma totalMileage_whole vs :
  Forall wholeMiles vs ->
  (sumMiles vs < 2 ^ 53)%Z ->
  totalMileage vs = Num.of_Z (sumMiles vs).
Proof.
  intros Hall Hlt.
  assert (0 <= 0)%Z as H0 by lia.
  assert (0 + sumMiles vs < 2 ^ 53)%Z as H1 by lia.
  exact (sum_whole vs 0%Z H0 Hall H1).
Qed.

(** The quotient of a whole total below [2^52] by a count is rounded by
    less than half of one over the count. *)
Lemma quotient_error (t n : Z) :
  (0 < t < 2 ^ 52)%Z -> (0 < n)%Z ->
  exists r,
    Num.round64 (inject_Z t / inject_Z n) = Fin r
    /\ 0 <= r
    /\ ((r < 1 # 2 /\ inject_Z t / inject_Z n < 1 # 2)
        \/ Qabs (r - inject_Z t / inject_Z n) * (2 * inject_Z n) < 1).
Proof.
  intros Ht Hn.
  assert (0 < inject_Z t) as Ht0
    by (change 0 with (inject_Z 0); rewrite <- Zlt_Qlt; lia).
  assert (0 < inject_Z n) as Hn0
    by (change 0 with (inject_Z 0); rewrite <- Zlt_Qlt; lia).
  assert (1 <= inject_Z n) as Hn1
    by (change 1 with (inject_Z 1); rewrite <- Zle_Qle; lia).
  assert (inject_Z t < 2 ^ 52) as Ht52.
  { assert (inject_Z t < inject_Z (2 ^ 52)) as H
      by (rewrite <- Zlt_Qlt; lia).
    now rewrite <- (pow2_Z 52) in H by lia. }
  set (x := inject_Z t / inject_Z n).
  assert (x * inject_Z n == inject_Z t) as Hx
    by (unfold x; field; lra).
  assert (0 < x) as Hx0 by (unfold x; apply Qlt_shift_div_l; lra).
  assert (x <= inject_Z t) as Hxt by nra.
  assert (x < 2 ^ 1023) as Hbig.
  { apply Qle_lt_trans with (inject_Z t); [exact Hxt|].
    apply Qlt_le_trans with (2 ^ 52); [exact Ht52|].
    apply pow2_le. lia. }
  destruct (round64_error x Hx0 Hbig) as (r & Hr & Hr0 & Herr).
  exists r. split; [exact Hr|]. split; [exact Hr0|].
  destruct (ilog2_spec x Hx0) as [Hlo Hhi].
  unfold spacingExp in Herr.
  destruct (Z_lt_le_dec (Num.ilog2 x) (-1022)) as [Hsub|Hnorm].
  - left.
    rewrite Z.max_r in Herr by lia.
    assert (x < 2 ^ (-1022)) as Hx1.
    { apply Qlt_le_trans with (2 ^ (Num.ilog2 x + 1)); [exact Hhi|].
      apply pow2_le. lia. }
    assert (2 ^ (-1022) < 1 # 4) as Hs1
      by (change (1 # 4) with (2 ^ (-2)); apply pow2_lt; lia).
    assert (2 ^ (-1022 - 52) < 1 # 4) as Hs2
      by (change (1 # 4) with (2 ^ (-2)); apply pow2_lt; lia).
    apply Qabs_Qle_condition in Herr. split; lra.
  - right.
    rewrite Z.max_l in Herr by lia.
    assert (2 ^ (Num.ilog2 x - 52) * 2 ^ 52 == 2 ^ Num.ilog2 x) as Hp.
    { rewrite <- pow2_plus. now replace (Num.ilog2 x - 52 + 52)%Z
        with (Num.ilog2 x) by lia. }
    pose proof (pow2_pos (Num.ilog2 x - 52)) as Hpp.
    set (u := 2 ^ (Num.ilog2 x - 52)) in *.
    assert (0 < 2 ^ 52) as H52 by apply pow2_pos.
    set (c := 2 ^ 52) in *.
    assert (u * inject_Z n < 1) as Hun by nra.
    apply Qle_lt_trans with ((1 # 2) * u * (2 * inject_Z n)).
    + apply Qmult_le_compat_r; [exact Herr | lra].
    + lra.
Qed.

(** An integer within one half and a little of a fraction over [n] is
    within one half of it. *)
Lemma half_integral (a t n : Z) (r : Q) :
  (0 < n)%Z ->
  Qabs (inject_Z a - r) <= 1 # 2 ->
  Qabs (r - inject_Z t / inject_Z n) * (2 * inject_Z n) < 1 ->
  Qabs (inject_Z a - inject_Z t / inject_Z n) <= 1 # 2.
Proof.
  intros Hn Ha Hr.
  assert (0 < inject_Z n) as Hn0
    by (change 0 with (inject_Z 0); rewrite <- Zlt_Qlt; lia).
  set (x := inject_Z t / inject_Z n) in *.
  assert (x * inject_Z n == inject_Z t) as Hx
    by (unfold x; field; lra).
  apply Qabs_Qle_condition in Ha.
  assert (- (1) < (r - x) * (2 * inject_Z n)
          /\ (r - x) * (2 * inject_Z n) < 1) as [Hr1 Hr2].
  { destruct (Qlt_le_dec (r - x) 0) as [Hneg|Hpos].
    - rewrite Qabs_neg in Hr by lra. split; [lra|]. nra.
    - rewrite Qabs_pos in Hr by lra. split; [nra|lra]. }
  set (j := (a * n - t)%Z).
  assert (inject_Z j == (inject_Z a - x) * inject_Z n) as Hj.
  { unfold j, Z.sub.
    rewrite inject_Z_plus, inject_Z_opp, inject_Z_mult. lra. }
  assert (inject_Z (2 * j) < inject_Z (n + 1)) as H1.
  { rewrite inject_Z_mult, inject_Z_plus, Hj.
    change (inject_Z 2) with 2. change (inject_Z 1) with 1. nra. }
  assert (inject_Z (- (n + 1)) < inject_Z (2 * j)) as H2.
  { rewrite inject_Z_mult, inject_Z_opp, inject_Z_plus, Hj.
    change (inject_Z 2) with 2. change (inject_Z 1) with 1. nra. }
  rewrite <- Zlt_Qlt in H1, H2.
  assert (inject_Z (2 * j) <= inject_Z n) as H3
    by (rewrite <- Zle_Qle; lia).
  assert (inject_Z (- n) <= inject_Z (2 * j)) as H4
    by (rewrite <- Zle_Qle; lia).
  rewrite inject_Z_mult, Hj in H3, H4. rewrite inject_Z_opp in H4.
  change (inject_Z 2) with 2 in *.
  apply Qabs_Qle_condition. split; nra.
Qed.

(** C7. For a list whose mileages are non-negative whole numbers (a
    missing mileage counts as 0) that total less than [2^52],
    totalMileage is their exact sum; avgMileage is the number 0 for the
    empty list and otherwise the text of a non-negative integer within
    one half of totalMileage / totalVehicles: the quotient rounded to
    the nearest integer, the divisor being positive. *)
Theorem avgMileage_rounds (vs : list vehicle) :
  Forall wholeMiles vs ->
  (sumMiles vs < 2 ^ 52)%Z ->
  totalMileage vs = Num.of_Z (sumMiles vs)
  /\ match vs with
     | [] => avgMileage vs = VNum Num.zero
     | _ :: _ =>
         exists n,
           (0 <= n)%Z
           /\ 0 < inject_Z (Z.of_nat (totalVehicles vs))
           /\ avgMileage vs = VStr (Num.digits_of n)
           /\ Qabs (inject_Z n
                    - inject_Z (sumMiles vs)
                      / inject_Z (Z.of_nat (totalVehicles vs)))
              <= 1 # 2
     end.
Proof.
  intros Hall Hlt.
  assert (totalMileage vs = Num.of_Z (sumMiles vs)) as Htot
    by (apply totalMileage_whole; [assumption | lia]).
  split; [exact Htot|].
  destruct vs as [|v vs]; [reflexivity|].
  pose proof (sumMiles_nonneg _ Hall) as Hs0.
  unfold avgMileage. rewrite Htot. clear Htot.
  set (t := sumMiles (v :: vs)) in *.
  set (len := totalVehicles (v :: vs)).
  assert (0 < Z.of_nat len)%Z as Hlen
    by (unfold len, totalVehicles; simpl; lia).
  assert (0 < inject_Z (Z.of_nat len)) as Hlen0
    by (change 0 with (inject_Z 0); rewrite <- Zlt_Qlt; lia).
  assert ((0 <? len)%nat = true) as -> by reflexivity.
  unfold Num.div, Num.of_Z, Num.sgn.
  assert ((inject_Z (Z.of_nat len) ?= 0)%Q = Gt) as ->
    by (now apply Qgt_alt).
  assert (forall r, 0 <= r -> r < inject_Z (10 ^ 21) ->
          Num.toFixed0 (Fin r) = Num.digits_of (Num.nearest r)) as Hfix.
  { intros r Hr0 Hr1. unfold Num.toFixed0, Num.sgn.
    assert (Qle_bool (inject_Z (10 ^ 21)) r = false) as Hb.
    { destruct (Qle_bool (inject_Z (10 ^ 21)) r) eqn:E; [|reflexivity].
      apply Qle_bool_iff in E. lra. }
    rewrite Hb. destruct (Qcompare_spec r 0) as [He|Hl|Hg];
      try reflexivity. lra. }
  destruct (Z.eq_dec t 0) as [Hz|Hnz].
  - exists 0%Z. rewrite Hz.
    rewrite round64_zero
      by (change (inject_Z 0) with 0; field; lra).
    split; [lia|]. split; [exact Hlen0|]. split.
    + reflexivity.
    + change (inject_Z 0) with 0. apply Qabs_Qle_condition.
      assert (0 / inject_Z (Z.of_nat len) == 0) as -> by (field; lra).
      split; lra.
  - destruct (quotient_error t (Z.of_nat len)) as (r & Hr & Hr0 & Hcase);
      [lia | lia |].
    rewrite Hr.
    assert (0 < inject_Z t) as Ht0
      by (change 0 with (inject_Z 0); rewrite <- Zlt_Qlt; lia).
    assert (0 < inject_Z t / inject_Z (Z.of_nat len)) as Hx0
      by (apply Qlt_shift_div_l; lra).
    destruct Hcase as [[Hsmall Hxs] | Hclose].
    + exists 0%Z.
      rewrite Hfix; [| exact Hr0 |].
      * rewrite (nearest_small r Hr0 Hsmall).
        split; [lia|]. split; [exact Hlen0|]. split; [reflexivity|].
        change (inject_Z 0) with 0. apply Qabs_Qle_condition. split; lra.
      * apply Qlt_trans with (1 # 2); [exact Hsmall|]. reflexivity.
    + exists (Num.nearest r).
      destruct (nearest_close r Hr0) as [Hn Hc].
      assert (r < inject_Z (10 ^ 21)) as Hr21.
      { assert (inject_Z t / inject_Z (Z.of_nat len) <= inject_Z t) as Hq.
        { apply Qle_shift_div_r; [exact Hlen0|].
          assert (1 <= inject_Z (Z.of_nat len))
            by (change 1 with (inject_Z 1); rewrite <- Zle_Qle; lia).
          nra. }
        assert (inject_Z t < inject_Z (2 ^ 52)) as Ht52
          by (rewrite <- Zlt_Qlt; lia).
        assert (inject_Z (2 ^ 52) + 1 < inject_Z (10 ^ 21)) as Hc21
          by reflexivity.
        assert (r - inject_Z t / inject_Z (Z.of_nat len) < 1) as Hd.
        { destruct (Qlt_le_dec
                      (r - inject_Z t / inject_Z (Z.of_nat len)) 0)
            as [Hneg|Hpos]; [lra|].
          rewrite Qabs_pos in Hclose by exact Hpos.
          assert (1 <= inject_Z (Z.of_nat len))
            by (change 1 with (inject_Z 1); rewrite <- Zle_Qle; lia).
          nra. }
        lra. }
      rewrite Hfix by assumption.
      split; [exact Hn|]. split; [exact Hlen0|]. split; [reflexivity|].
      now apply half_integral with r.
Qed.

(** The empty list and the four sample vehicles (292000 miles in all). *)
Lemma avgMileage_rounds_witness :
  avgMileage [] = VNum Num.zero
  /\ totalMileage sampleVehicles = Num.of_Z 292000
  /\ avgMileage sampleVehicles = VStr "73000".
Proof.
  split; [|split].
  - apply (avgMileage_rounds []); [constructor | reflexivity].
  - apply (avgMileage_rounds sampleVehicles).
    + repeat (apply Forall_cons;
              [right; eexists; split; [|reflexivity]; discriminate|]).
      apply Forall_nil.
    + reflexivity.
  - reflexivity.
Defined.

(** Above [2^52] the quotient is rounded to a multiple of one half
    before it is printed.  These three mileages total 6755399441055745,
    a third of which is 2251799813685248 and a third; the quotient
    computed is 2251799813685248 and a half, and the text printed is
    that of the next integer.  A value of [10^21] is printed in exponent
    notation. *)
Lemma avgMileage_rounds_counterexample :
  let record z :=
    mkVehicle None "" None (VNum Num.zero) "" (Num.of_Z z)
      Num.zero "" "Active" None in
  let vs :=
    map record [2251799813685248; 2251799813685248; 2251799813685249]%Z in
  Forall wholeMiles vs
  /\ totalMileage vs = Num.of_Z 6755399441055745
  /\ totalVehicles vs = 3%nat
  /\ avgMileage vs = VStr "2251799813685249"
  /\ ~ Qabs (inject_Z 2251799813685249 - inject_Z 6755399441055745 / 3)
       <= 1 # 2
  /\ avgMileage [record (10 ^ 21)%Z] = VStr "1e+21".
Proof.
  cbv zeta. split; [|split; [|split; [|split; [|split]]]].
  - repeat (apply Forall_cons;
            [right; eexists; split; [|reflexivity]; discriminate|]).
    apply Forall_nil.
  - vm_compute. reflexivity.
  - reflexivity.
  - vm_compute. reflexivity.
  - intros H. vm_compute in H. now apply H.
  - vm_compute. reflexivity.
Qed.

(* ------------------------------------------------------------------ *)
(** ** Service progress *)

Lemma clamp_bounds lo hi x : lo <= hi -> lo <= clamp lo hi x <= hi.
Proof.
  intros H. unfold clamp.
  destruct (Qle_bool x lo) eqn:E1; [lra|].
  destruct (Qle_bool hi x) eqn:E2; [lra|].
  assert (~ x <= lo) by (rewrite <- Qle_bool_iff; congruence).
  assert (~ hi <= x) by (rewrite <- Qle_bool_iff; congruence).
  lra.
Qed.

(** Clamping brings two values no further apart. *)
Lemma clamp_close lo hi x y d :
  lo <= hi -> Qabs (x - y) <= d -> Qabs (clamp lo hi x - clamp lo hi y) <= d.
Proof.
  intros H Hd. apply Qabs_Qle_condition in Hd.
  apply Qabs_Qle_condition. unfold clamp.
  destruct (Qle_bool x lo) eqn:X1; destruct (Qle_bool y lo) eqn:Y1;
    destruct (Qle_bool hi x) eqn:X2; destruct (Qle_bool hi y) eqn:Y2;
    repeat match goal with
           | E : Qle_bool _ _ = true |- _ => apply Qle_bool_iff in E
           | E : Qle_bool ?a ?b = false |- _ =>
               assert (~ a <= b) by (rewrite <- Qle_bool_iff; congruence);
               clear E
           end;
    split; lra.
Qed.

Lemma min_max_clamp x :
  exists r,
    Num.min (Num.of_Z 100) (Num.max (Num.of_Z 0) (Fin x)) = Fin r
    /\ r == clamp 0 100 x.
Proof.
  unfold Num.min, Num.max, Num.of_Z, clamp. simpl.
  destruct (Qle_bool x 0) eqn:E1.
  - apply Qle_bool_iff in E1.
    destruct (Qcompare_spec (inject_Z 0) x) as [He|Hl|Hg];
      try (change (inject_Z 0) with 0 in *; lra).
    + simpl. exists (inject_Z 0). split; reflexivity.
    + simpl. exists (inject_Z 0). split; reflexivity.
  - assert (~ x <= 0) as N1 by (rewrite <- Qle_bool_iff; congruence).
    destruct (Qcompare_spec (inject_Z 0) x) as [He|Hl|Hg];
      try (change (inject_Z 0) with 0 in *; lra).
    simpl.
    destruct (Qle_bool 100 x) eqn:E2.
    + apply Qle_bool_iff in E2.
      destruct (Qcompare_spec (inject_Z 100) x) as [He'|Hl'|Hg'];
        try (change (inject_Z 100) with 100 in *; lra).
      * exists (inject_Z 100). split; reflexivity.
      * exists (inject_Z 100). split; reflexivity.
    + assert (~ 100 <= x) as N2 by (rewrite <- Qle_bool_iff; congruence).
      destruct (Qcompare_spec (inject_Z 100) x) as [He'|Hl'|Hg'];
        try (change (inject_Z 100) with 100 in *; lra).
      exists x. split; reflexivity.
Qed.

Lemma representable_1 : representable 1.
Proof. exists (2 ^ 52)%Z. vm_compute. reflexivity. Qed.

Lemma representable_100 : representable 100.
Proof. exists (25 * 2 ^ 48)%Z. vm_compute. reflexivity. Qed.

(** The value under the clamp, for a finite mileage [m] and a
    nextServiceMileage [n > 0]. *)
Lemma progress_div m n :
  0 < n ->
  Num.mul (Num.div (Fin m) (Fin n)) (Num.of_Z 100)
  = Num.mul (Num.round64 (m / n)) (Num.of_Z 100).
Proof.
  intros Hn. unfold Num.div, Num.sgn.
  assert ((n ?= 0)%Q = Gt) as -> by (now apply Qgt_alt). reflexivity.
Qed.

Lemma progress_low m n :
  0 < n -> m <= 0 ->
  Num.min (Num.of_Z 100)
    (Num.max (Num.of_Z 0)
       (Num.mul (Num.round64 (m / n)) (Num.of_Z 100))) = Num.zero.
Proof.
  intros Hn Hm.
  assert (m / n <= 0) as Hq.
  { apply Qle_shift_div_r; [exact Hn|]. lra. }
  assert (forall b, b <= 0 ->
          Num.min (Num.of_Z 100) (Num.max (Num.of_Z 0) (Fin b)) = Num.zero)
    as Hclamp.
  { intros b Hb. unfold Num.max, Num.min, Num.of_Z, Num.compare.
    destruct (Qcompare_spec (inject_Z 0) b) as [He|Hl|Hg];
      try (change (inject_Z 0) with 0 in *; lra); reflexivity. }
  destruct (round64_nonpos _ Hq) as [-> | (a & -> & Ha)]; [reflexivity|].
  unfold Num.mul, Num.of_Z.
  assert (a * inject_Z 100 <= 0) as Hp
    by (change (inject_Z 100) with 100; lra).
  destruct (round64_nonpos _ Hp) as [-> | (b & -> & Hb)]; [reflexivity|].
  now apply Hclamp.
Qed.

Lemma progress_full m n :
  0 < n -> n <= m ->
  Num.min (Num.of_Z 100)
    (Num.max (Num.of_Z 0)
       (Num.mul (Num.round64 (m / n)) (Num.of_Z 100))) = Num.of_Z 100.
Proof.
  intros Hn Hm.
  assert (1 <= m / n) as Hq by (apply Qle_shift_div_l; lra).
  assert (forall b, 100 <= b ->
          Num.min (Num.of_Z 100) (Num.max (Num.of_Z 0) (Fin b))
          = Num.of_Z 100) as Hclamp.
  { intros b Hb. unfold Num.max, Num.min, Num.of_Z, Num.compare.
    destruct (Qcompare_spec (inject_Z 0) b) as [He|Hl|Hg];
      try (change (inject_Z 0) with 0 in *; lra).
    destruct (Qcompare_spec (inject_Z 100) b) as [He'|Hl'|Hg'];
      try (change (inject_Z 100) with 100 in *; lra); reflexivity. }
  destruct (round64_ge 1 _ ltac:(reflexivity) representable_1 Hq)
    as [-> | (a & -> & Ha)]; [reflexivity|].
  unfold Num.mul, Num.of_Z.
  assert (100 <= a * inject_Z 100) as Hp
    by (change (inject_Z 100) with 100; lra).
  destruct (round64_ge 100 _ ltac:(reflexivity) representable_100 Hp)
    as [-> | (b & -> & Hb)]; [reflexivity|].
  now apply Hclamp.
Qed.

Lemma round64_not_NaN q : Num.round64 q <> NaN.
Proof.
  unfold Num.round64.
  destruct (q ?= 0)%Q; [discriminate| |];
    destruct (Num.round_pos _); discriminate.
Qed.

Lemma progress_bounds m n :
  exists r,
    Num.min (Num.of_Z 100)
      (Num.max (Num.of_Z 0)
         (Num.mul (Num.round64 (m / n)) (Num.of_Z 100))) = Fin r
    /\ 0 <= r <= 100.
Proof.
  pose proof (round64_not_NaN (m / n)) as H1.
  destruct (Num.round64 (m / n)) as [| | |a]; [congruence | | |].
  - exists 100. split; [reflexivity|lra].
  - exists 0. split; [reflexivity|lra].
  - unfold Num.mul, Num.of_Z.
    pose proof (round64_not_NaN (a * inject_Z 100)) as H2.
    destruct (Num.round64 (a * inject_Z 100)) as [| | |b]; [congruence | | |].
    + exists 100. split; [reflexivity|lra].
    + exists 0. split; [reflexivity|lra].
    + destruct (min_max_clamp b) as (r & Hr & Hc).
      exists r. split; [exact Hr|]. rewrite Hc. apply clamp_bounds. lra.
Qed.

(** Rounding a value of the normal range changes it by at most one part
    in [2^53]. *)
Lemma round64_relative q :
  2 ^ (-1022) <= q -> q < 2 ^ 1023 ->
  exists r, Num.round64 q = Fin r /\ Qabs (r - q) <= q * 2 ^ (-53).
Proof.
  intros Hlo Hhi.
  pose proof (pow2_pos (-1022)) as P.
  assert (0 < q) as Hq by lra.
  destruct (round64_error q Hq Hhi) as (r & Hr & _ & Herr).
  exists r. split; [exact Hr|].
  destruct (ilog2_spec q Hq) as [S1 S2].
  assert (-1022 <= Num.ilog2 q)%Z as He.
  { destruct (Z_lt_le_dec (Num.ilog2 q) (-1022)) as [Hc|Hc]; [|exact Hc].
    assert (2 ^ (Num.ilog2 q + 1) <= 2 ^ (-1022)) by (apply pow2_le; lia).
    lra. }
  unfold spacingExp in Herr. rewrite Z.max_l in Herr by lia.
  assert (2 ^ (Num.ilog2 q - 52) == 2 * (2 ^ Num.ilog2 q * 2 ^ (-53)))
    as E.
  { replace (Num.ilog2 q - 52)%Z with (1 + (Num.ilog2 q + -53))%Z by lia.
    rewrite (pow2_plus 1), (pow2_plus (Num.ilog2 q)).
    change (2 ^ 1) with 2. reflexivity. }
  rewrite E in Herr.
  pose proof (pow2_pos (-53)) as P53.
  set (u := 2 ^ (-53)) in *. set (w := 2 ^ Num.ilog2 q) in *.
  apply Qle_trans with ((1 # 2) * (2 * (w * u))); [exact Herr|]. nra.
Qed.

(** For whole mileages below [2^53] the value under the clamp is within
    one part in [2^51] of mileage / nextServiceMileage * 100. *)
Lemma progress_close (a b : Z) :
  (0 <= a < 2 ^ 53)%Z -> (0 < b < 2 ^ 53)%Z ->
  exists x,
    Num.mul (Num.round64 (inject_Z a / inject_Z b)) (Num.of_Z 100) = Fin x
    /\ Qabs (x - inject_Z a / inject_Z b * 100)
       <= inject_Z a / inject_Z b * 100 * 2 ^ (-51).
Proof.
  intros Ha Hb.
  assert (0 < inject_Z b) as Hb0
    by (change 0 with (inject_Z 0); rewrite <- Zlt_Qlt; lia).
  destruct (Z.eq_dec a 0) as [->|Hnz].
  - exists 0.
    rewrite (round64_zero (inject_Z 0 / inject_Z b))
      by (change (inject_Z 0) with 0; field; lra).
    split; [reflexivity|].
    change (inject_Z 0) with 0.
    assert (0 / inject_Z b == 0) as -> by (field; lra).
    apply Qabs_Qle_condition. split; lra.
  - assert (1 <= inject_Z a) as Ha1
      by (change 1 with (inject_Z 1); rewrite <- Zle_Qle; lia).
    assert (1 <= inject_Z b) as Hb1
      by (change 1 with (inject_Z 1); rewrite <- Zle_Qle; lia).
    assert (inject_Z a < 2 ^ 53) as Ha53.
    { assert (inject_Z a < inject_Z (2 ^ 53)) as H
        by (rewrite <- Zlt_Qlt; lia).
      now rewrite <- (pow2_Z 53) in H by lia. }
    assert (inject_Z b < 2 ^ 53) as Hb53.
    { assert (inject_Z b < inject_Z (2 ^ 53)) as H
        by (rewrite <- Zlt_Qlt; lia).
      now rewrite <- (pow2_Z 53) in H by lia. }
    set (q := inject_Z a / inject_Z b).
    assert (q * inject_Z b == inject_Z a) as Hq
      by (unfold q; field; lra).
    assert (2 ^ 53 * 2 ^ (-53) == 1) as Hone
      by (rewrite <- pow2_plus; reflexivity).
    pose proof (pow2_pos 53) as P53. pose proof (pow2_pos (-53)) as Pm53.
    assert (2 ^ (-53) <= q) as Hqlo.
    { set (c := 2 ^ 53) in *. set (u := 2 ^ (-53)) in *.
      assert (0 < q) by (unfold q; apply Qlt_shift_div_l; lra).
      nra. }
    assert (q <= inject_Z a) as Hqhi.
    { assert (0 < q) by (unfold q; apply Qlt_shift_div_l; lra). nra. }
    assert (2 ^ (-1022) <= 2 ^ (-54)) as L1 by (apply pow2_le; lia).
    assert (2 ^ (-54) <= 2 ^ (-53)) as L2 by (apply pow2_le; lia).
    assert (2 ^ 53 <= 2 ^ 1000) as L3 by (apply pow2_le; lia).
    assert (128 * 2 ^ 1000 < 2 ^ 1023) as L4.
    { change 128 with (2 ^ 7). rewrite <- pow2_plus. apply pow2_lt. lia. }
    pose proof (pow2_pos 1000) as P1000.
    assert (2 ^ (-54) * 2 == 2 ^ (-53)) as L5
      by (rewrite <- (pow2_plus (-54) 1); reflexivity).
    assert (2 ^ (-53) < 1 # 2) as L6
      by (change (1 # 2) with (2 ^ (-1)); apply pow2_lt; lia).
    assert (2 ^ (-51) == 4 * 2 ^ (-53)) as L7
      by (change 4 with (2 ^ 2); rewrite <- pow2_plus; reflexivity).
    destruct (round64_relative q) as (r1 & Hr1 & E1); [lra | lra |].
    rewrite Hr1. unfold Num.mul, Num.of_Z.
    change (inject_Z 100) with 100.
    apply Qabs_Qle_condition in E1.
    set (u := 2 ^ (-53)) in *.
    assert (q * (1 - u) <= r1 <= q * (1 + u)) as [R1 R2] by (split; lra).
    assert (0 < q) as Hq0 by lra.
    destruct (round64_relative (r1 * 100)) as (r2 & Hr2 & E2).
    + nra.
    + nra.
    + exists r2. split; [exact Hr2|].
      apply Qabs_Qle_condition in E2.
      rewrite L7. apply Qabs_Qle_condition. split; nra.
Qed.

(** C8. For a record whose mileage is a finite number [m]: when
    nextServiceMileage is not greater than 0 (zero, negative or missing)
    the progress is 0 and nothing is divided; when it is a number
    [n > 0] the progress is the binary64 value of m / n * 100 clamped to
    the interval from 0 to 100: it is 0 when [m <= 0], 100 when
    [n <= m], and for whole mileages below [2^53] within one part in
    [2^51] of the exact quotient clamped; in every case the progress is
    a finite number between 0 and 100. *)
Theorem serviceProgress_clamped (v : vehicle) (m : Q) :
  mileage v = Fin m ->
  (Num.gt (nextServiceMileage v) Num.zero = false ->
   serviceProgress v = Num.zero)
  /\ (forall n, nextServiceMileage v = Fin n -> 0 < n ->
      serviceProgress v
      = Num.min (Num.of_Z 100)
          (Num.max (Num.of_Z 0)
             (Num.mul (Num.round64 (m / n)) (Num.of_Z 100)))
      /\ (m <= 0 -> serviceProgress v = Num.zero)
      /\ (n <= m -> serviceProgress v = Num.of_Z 100)
      /\ (forall a b : Z,
          m = inject_Z a -> n = inject_Z b ->
          (0 <= a < 2 ^ 53)%Z -> (b < 2 ^ 53)%Z ->
          exists r, serviceProgress v = Fin r
                    /\ Qabs (r - clamp 0 100 (m / n * 100))
                       <= m / n * 100 * 2 ^ (-51)))
  /\ (exists r, serviceProgress v = Fin r /\ 0 <= r <= 100).
Proof.
  intros Hm.
  assert (forall n, nextServiceMileage v = Fin n -> 0 < n ->
          serviceProgress v
          = Num.min (Num.of_Z 100)
              (Num.max (Num.of_Z 0)
                 (Num.mul (Num.round64 (m / n)) (Num.of_Z 100)))) as Hval.
  { intros n Hn Hpos. unfold serviceProgress. rewrite Hm, Hn.
    unfold Num.gt, Num.zero, Num.of_Z. cbn [Num.compare].
    assert ((n ?= inject_Z 0)%Q = Gt) as -> by (now apply Qgt_alt).
    fold (Num.of_Z 100). fold (Num.of_Z 0).
    now rewrite progress_div. }
  split; [|split].
  - unfold serviceProgress. intros ->. reflexivity.
  - intros n Hn Hpos. rewrite (Hval n Hn Hpos).
    split; [reflexivity|]. split; [|split].
    + now apply progress_low.
    + now apply progress_full.
    + intros a b -> -> Ha Hb.
      assert (0 < b)%Z as Hb0.
      { change 0 with (inject_Z 0) in Hpos. now rewrite <- Zlt_Qlt in Hpos. }
      destruct (progress_close a b Ha (conj Hb0 Hb)) as (x & -> & Hx).
      destruct (min_max_clamp x) as (r & -> & Hr).
      exists r. split; [reflexivity|]. rewrite Hr.
      now apply clamp_close; [lra|].
  - destruct (nextServiceMileage v) as [| | |n] eqn:Hn.
    + exists 0. unfold serviceProgress. rewrite Hn.
      split; [reflexivity|]. lra.
    + exists 0. unfold serviceProgress. rewrite Hm, Hn.
      split; [reflexivity|]. lra.
    + exists 0. unfold serviceProgress. rewrite Hn.
      split; [reflexivity|]. lra.
    + destruct (Qlt_le_dec 0 n) as [Hpos|Hle].
      * rewrite (Hval n eq_refl Hpos). apply progress_bounds.
      * exists 0. split; [|lra].
        unfold serviceProgress. rewrite Hn.
        unfold Num.gt, Num.compare, Num.zero, Num.of_Z.
        destruct (Qcompare_spec n (inject_Z 0)) as [He|Hl|Hg];
          try reflexivity.
        change (inject_Z 0) with 0 in Hg. lra.
Qed.

(** The second sample vehicle (12000 of 25000 miles), and a record with
    nextServiceMileage 0. *)
Lemma serviceProgress_clamped_witness :
  (exists r, serviceProgress (nth 1 sampleVehicles defaultVehicle) = Fin r
             /\ Qabs (r - clamp 0 100 (12000 / 25000 * 100))
                <= 12000 / 25000 * 100 * 2 ^ (-51))
  /\ serviceProgress (set_nextServiceMileage (Num.of_Z 0) defaultVehicle)
     = Num.zero.
Proof.
  split.
  - apply (proj2 (proj2 (proj2 (proj1 (proj2 (serviceProgress_clamped
             (nth 1 sampleVehicles defaultVehicle) (inject_Z 12000)
             eq_refl)) (inject_Z 25000) eq_refl eq_refl)))
           12000%Z 25000%Z eq_refl eq_refl).
    + lia.
    + lia.
  - apply (proj1 (serviceProgress_clamped
             (set_nextServiceMileage (Num.of_Z 0) defaultVehicle)
             (inject_Z 0) eq_refl)).
    reflexivity.
Defined.

(** A record without a mileage has no progress between 0 and 100: the
    quotient is NaN and so are the maximum and the minimum taken of it.
    And the progress of 1 mile of 3 is not the exact third of 100 but
    the binary64 value next to it. *)
Lemma serviceProgress_clamped_counterexample :
  (let v := set_mileage NaN (nth 1 sampleVehicles defaultVehicle) in
   Num.gt (nextServiceMileage v) Num.zero = true
   /\ serviceProgress v = NaN)
  /\ (let v := set_mileage (Num.of_Z 1)
                 (set_nextServiceMileage (Num.of_Z 3) defaultVehicle) in
      exists r, serviceProgress v = Fin r
                /\ ~ r == clamp 0 100 (1 / 3 * 100)).
Proof.
  split.
  - split; reflexivity.
  - cbv zeta. eexists. split.
    + vm_compute. reflexivity.
    + intros H. vm_compute in H. discriminate.
Qed.

(* ------------------------------------------------------------------ *)
(** ** Number on text *)

Lemma is_space2_plain_first c c1 :
  plain c = true -> Num.is_space2 c c1 = false.
Proof.
  unfold plain, Num.is_space2. intros H.
  apply andb_prop in H as [_ H]. apply N.ltb_lt in H.
  assert ((N_of_ascii c =? 194)%N = false) as -> by (apply N.eqb_neq; lia).
  reflexivity.
Qed.

Lemma is_space2_plain_last c c1 :
  plain c = true -> Num.is_space2 c1 c = false.
Proof.
  unfold plain, Num.is_space2. intros H.
  apply andb_prop in H as [_ H]. apply N.ltb_lt in H.
  assert ((N_of_ascii c =? 160)%N = false) as -> by (apply N.eqb_neq; lia).
  apply andb_false_r.
Qed.

Lemma is_space3_plain_first c c1 c2 :
  plain c = true -> Num.is_space3 c c1 c2 = false.
Proof.
  unfold plain, Num.is_space3. intros H. cbv zeta.
  apply andb_prop in H as [_ H]. apply N.ltb_lt in H.
  assert ((N_of_ascii c =? 225)%N = false) as -> by (apply N.eqb_neq; lia).
  assert ((N_of_ascii c =? 226)%N = false) as -> by (apply N.eqb_neq; lia).
  assert ((N_of_ascii c =? 227)%N = false) as -> by (apply N.eqb_neq; lia).
  assert ((N_of_ascii c =? 239)%N = false) as -> by (apply N.eqb_neq; lia).
  reflexivity.
Qed.

Lemma is_space3_plain_last c c1 c2 :
  plain c = true -> Num.is_space3 c2 c1 c = false.
Proof.
  unfold plain, Num.is_space3. intros H. cbv zeta.
  apply andb_prop in H as [_ H]. apply N.ltb_lt in H.
  assert ((N_of_ascii c =? 128)%N = false) as -> by (apply N.eqb_neq; lia).
  assert ((N_of_ascii c =? 159)%N = false) as -> by (apply N.eqb_neq; lia).
  assert ((N_of_ascii c =? 168)%N = false) as -> by (apply N.eqb_neq; lia).
  assert ((N_of_ascii c =? 169)%N = false) as -> by (apply N.eqb_neq; lia).
  assert ((N_of_ascii c =? 175)%N = false) as -> by (apply N.eqb_neq; lia).
  assert ((N_of_ascii c =? 191)%N = false) as -> by (apply N.eqb_neq; lia).
  assert ((128 <=? N_of_ascii c)%N = false) as -> by (apply N.leb_gt; lia).
  now rewrite !andb_false_r.
Qed.

(** Trimming stops at a plain character, from either end. *)
Lemma trim_left_plain b c r :
  plain c = true -> Num.trim_left b (c :: r) = c :: r.
Proof.
  intros H. pose proof H as Hs. unfold plain in Hs.
  apply andb_prop in Hs as [Hs _]. apply negb_true_iff in Hs.
  cbn [Num.trim_left]. rewrite Hs.
  destruct r as [|c1 r1]; [reflexivity|].
  rewrite (is_space2_plain_first c c1 H), (is_space2_plain_last c c1 H).
  destruct b.
  - destruct r1 as [|c2 r2]; [reflexivity|].
    now rewrite (is_space3_plain_last c c1 c2 H).
  - destruct r1 as [|c2 r2]; [reflexivity|].
    now rewrite (is_space3_plain_first c c1 c2 H).
Qed.

(** Trimming leaves a text of plain characters alone. *)
Lemma trim_id cs : forallb plain cs = true -> Num.trim cs = cs.
Proof.
  intros H. unfold Num.trim.
  assert (forall b l, forallb plain l = true -> Num.trim_left b l = l)
    as Hid.
  { intros b l Hl. destruct l as [|c l]; [reflexivity|].
    apply trim_left_plain. simpl in Hl. now apply andb_prop in Hl as [? _]. }
  rewrite (Hid false cs H), Hid, rev_involutive; [reflexivity|].
  rewrite forallb_forall in *. intros x Hx. apply H. now apply in_rev.
Qed.

Lemma digit_plain c v : Num.digit_value 10 c = Some v -> plain c = true.
Proof.
  destruct c as [[] [] [] [] [] [] [] []];
    intros H; try reflexivity; discriminate H.
Qed.

Lemma digit_not_letter c v :
  Num.digit_value 10 c = Some v ->
  (c =? ".")%char = false /\ (c =? "I")%char = false
  /\ (c =? "+")%char = false /\ (c =? "-")%char = false.
Proof.
  destruct c as [[] [] [] [] [] [] [] []];
    intros H; try discriminate H; repeat split.
Qed.

(** What [digits] reads does not depend on the value and the count it
    starts from; the characters read are plain. *)
Lemma digits_shape cs : forall acc len,
  exists v k rest,
    Num.digits 10 acc len cs = (v, (len + k)%Z, rest)
    /\ (0 <= k)%Z
    /\ forallb plain cs = forallb plain rest
    /\ (k = 0%Z -> rest = cs)
    /\ ((0 < k)%Z ->
        exists c r d, cs = c :: r /\ Num.digit_value 10 c = Some d)
    /\ (forall acc' len',
        exists v', Num.digits 10 acc' len' cs = (v', (len' + k)%Z, rest)).
Proof.
  induction cs as [|c cs IH]; intros acc len.
  - exists acc, 0%Z, []. cbn [Num.digits]. rewrite Z.add_0_r.
    repeat split; try lia; try reflexivity.
    intros acc' len'. exists acc'. now rewrite Z.add_0_r.
  - cbn [Num.digits]. destruct (Num.digit_value 10 c) as [d|] eqn:Hd.
    + destruct (IH (acc * 10 + d)%Z (len + 1)%Z)
        as (v & k & rest & E & Hk & Hp & _ & _ & Hind).
      exists v, (k + 1)%Z, rest.
      split; [rewrite E; f_equal; f_equal; lia|].
      split; [lia|]. split; [|split; [lia|split]].
      * cbn [forallb]. now rewrite (digit_plain c d Hd).
      * intros _. now exists c, cs, d.
      * intros acc' len'.
        destruct (Hind (acc' * 10 + d)%Z (len' + 1)%Z) as (v' & E').
        exists v'. rewrite E'. f_equal. f_equal. lia.
    + exists acc, 0%Z, (c :: cs). rewrite Z.add_0_r.
      repeat split; try lia; try reflexivity.
      intros acc' len'. exists acc'. now rewrite Z.add_0_r.
Qed.

(** The tests of [split_sign] and [parse_decimal], written with the
    equality of characters. *)
Lemma split_sign_eqb cs :
  Num.split_sign cs
  = match cs with
    | c :: r =>
        if (c =? "+")%char then (false, r)
        else if (c =? "-")%char then (true, r)
        else (false, cs)
    | [] => (false, cs)
    end.
Proof.
  destruct cs as [|c r]; [reflexivity|].
  destruct c as [[] [] [] [] [] [] [] []]; reflexivity.
Qed.

Lemma parse_decimal_eqb cs :
  Num.parse_decimal cs
  = let '(m1, n1, r1) := Num.digits 10 0 0 cs in
    let '(m, n2, r2) :=
      match r1 with
      | c :: r =>
          if (c =? ".")%char then Num.digits 10 m1 0 r else (m1, 0%Z, r1)
      | [] => (m1, 0%Z, r1)
      end in
    if (n1 + n2 =? 0)%Z then None
    else
      match r2 with
      | [] => Some (inject_Z m * Num.pow10 (- n2))
      | c :: r3 =>
          if (c =? "e")%char || (c =? "E")%char then
            let '(eneg, r4) := Num.split_sign r3 in
            match Num.digits 10 0 0 r4 with
            | (ex, nx, []) =>
                if (nx =? 0)%Z then None
                else Some (inject_Z m
                           * Num.pow10 ((if eneg then - ex else ex) - n2))
            | _ => None
            end
          else None
      end.
Proof.
  unfold Num.parse_decimal.
  destruct (Num.digits 10 0 0 cs) as [[m1 n1] r1].
  destruct r1 as [|c r]; [reflexivity|].
  destruct c as [[] [] [] [] [] [] [] []]; reflexivity.
Qed.

Lemma parse_nondecimal_head c r :
  (c =? "0")%char = false -> Num.parse_nondecimal (c :: r) = None.
Proof.
  destruct c as [[] [] [] [] [] [] [] []];
    intros H; try reflexivity; discriminate H.
Qed.

Lemma parse_nondecimal_valid body :
  validUnsigned body = true -> Num.parse_nondecimal body = None.
Proof.
  destruct body as [|c [|p rest]]; [reflexivity| |].
  - intros _. destruct c as [[] [] [] [] [] [] [] []]; reflexivity.
  - destruct (c =? "0")%char eqn:E0; [|intros _; now apply parse_nondecimal_head].
    apply Ascii.eqb_eq in E0. subst c. intros H.
    cbn [Num.parse_nondecimal].
    destruct (p =? "x")%char eqn:E1;
      [apply Ascii.eqb_eq in E1; subst p; vm_compute in H; discriminate H|].
    destruct (p =? "X")%char eqn:E2;
      [apply Ascii.eqb_eq in E2; subst p; vm_compute in H; discriminate H|].
    destruct (p =? "o")%char eqn:E3;
      [apply Ascii.eqb_eq in E3; subst p; vm_compute in H; discriminate H|].
    destruct (p =? "O")%char eqn:E4;
      [apply Ascii.eqb_eq in E4; subst p; vm_compute in H; discriminate H|].
    destruct (p =? "b")%char eqn:E5;
      [apply Ascii.eqb_eq in E5; subst p; vm_compute in H; discriminate H|].
    destruct (p =? "B")%char eqn:E6;
      [apply Ascii.eqb_eq in E6; subst p; vm_compute in H; discriminate H|].
    reflexivity.
Qed.

(** The exponent of a valid text is one [parse_decimal] reads. *)
Lemma exponent_valid r2 :
  match r2 with
  | [] => true
  | c :: r3 =>
      ((c =? "e")%char || (c =? "E")%char)
      && (let '(_, r4) := Num.split_sign r3 in
          match Num.digits 10 0 0 r4 with
          | (_, nx, []) => (0 <? nx)%Z
          | _ => false
          end)
  end = true ->
  forallb plain r2 = true
  /\ forall m n2, exists q,
       match r2 with
       | [] => Some (inject_Z m * Num.pow10 (- n2))
       | c :: r3 =>
           if (c =? "e")%char || (c =? "E")%char then
             let '(eneg, r4) := Num.split_sign r3 in
             match Num.digits 10 0 0 r4 with
             | (ex, nx, []) =>
                 if (nx =? 0)%Z then None
                 else Some (inject_Z m
                            * Num.pow10 ((if eneg then - ex else ex) - n2))
             | _ => None
             end
           else None
       end = Some q.
Proof.
  destruct r2 as [|c r3]; intros H.
  - split; [reflexivity|]. intros m n2. eauto.
  - apply andb_prop in H as [He H]. rewrite He.
    assert (plain c = true) as Hc.
    { apply orb_prop in He as [He|He]; apply Ascii.eqb_eq in He;
        subst c; reflexivity. }
    rewrite split_sign_eqb in *.
    assert (exists eneg r4,
              match r3 with
              | c0 :: r =>
                  if (c0 =? "+")%char then (false, r)
                  else if (c0 =? "-")%char then (true, r) else (false, r3)
              | [] => (false, r3)
              end = (eneg, r4)
              /\ forallb plain r3 = forallb plain r4) as (eneg & r4 & Hs & Hp).
    { destruct r3 as [|s r]; [now exists false, []|].
      destruct (s =? "+")%char eqn:Ep.
      - apply Ascii.eqb_eq in Ep. subst s. now exists false, r.
      - destruct (s =? "-")%char eqn:Em.
        + apply Ascii.eqb_eq in Em. subst s. now exists true, r.
        + now exists false, (s :: r). }
    rewrite Hs in *. cbv beta iota in H |- *.
    destruct (digits_shape r4 0 0) as (ex & nx & rest & E & _ & Hp4 & _).
    rewrite E in *. change (0 + nx)%Z with nx in *.
    destruct rest as [|x rest]; [|discriminate H].
    apply Z.ltb_lt in H.
    split.
    + cbn [forallb]. now rewrite Hc, Hp, Hp4.
    + intros m n2.
      assert ((nx =? 0)%Z = false) as -> by (apply Z.eqb_neq; lia). eauto.
Qed.

(** A valid unsigned text is made of plain characters, does not start
    like a sign or the word Infinity, and is a decimal literal. *)
Lemma validUnsigned_parse body :
  validUnsigned body = true ->
  forallb plain body = true
  /\ (exists c r, body = c :: r
                  /\ (c =? "I")%char = false
                  /\ (c =? "+")%char = false /\ (c =? "-")%char = false)
  /\ exists q, Num.parse_decimal body = Some q.
Proof.
  intros H. unfold validUnsigned in H. rewrite parse_decimal_eqb.
  destruct (digits_shape body 0 0)
    as (m1 & n1 & r1 & E1 & Hn1 & Hp1 & Hz1 & Hpos1 & _).
  rewrite E1 in *. change (0 + n1)%Z with n1 in *.
  assert ((0 < n1)%Z ->
          exists c r, body = c :: r
                      /\ (c =? "I")%char = false
                      /\ (c =? "+")%char = false /\ (c =? "-")%char = false)
    as Hhead.
  { intros Hpos. destruct (Hpos1 Hpos) as (c & r & d & -> & Hd).
    exists c, r. destruct (digit_not_letter c d Hd) as (_ & ? & ? & ?).
    auto. }
  destruct r1 as [|c r].
  - apply andb_prop in H as [H _]. apply Z.ltb_lt in H.
    split; [now rewrite Hp1|]. split; [now apply Hhead|].
    rewrite Z.add_0_r.
    assert ((n1 =? 0)%Z = false) as -> by (apply Z.eqb_neq; lia). eauto.
  - destruct (c =? ".")%char eqn:Edot.
    + apply Ascii.eqb_eq in Edot. subst c.
      destruct (digits_shape r 0 0)
        as (m2 & n2 & r2 & E2 & Hn2 & Hp2 & _ & _ & Hind2).
      rewrite E2 in H. change (0 + n2)%Z with n2 in *.
      destruct (Hind2 m1 0%Z) as (m & E2'). rewrite E2'.
      change (0 + n2)%Z with n2.
      apply andb_prop in H as [Hn H]. apply Z.ltb_lt in Hn.
      destruct (exponent_valid r2 H) as [Hpl Hq].
      split; [|split].
      * rewrite Hp1. cbn [forallb]. now rewrite Hp2, Hpl.
      * destruct (Z.eq_dec n1 0) as [Hz|Hnz].
        -- rewrite <- (Hz1 Hz). exists "."%char, r. auto.
        -- apply Hhead. lia.
      * assert ((n1 + n2 =? 0)%Z = false) as -> by (apply Z.eqb_neq; lia).
        apply Hq.
    + apply andb_prop in H as [Hn H]. apply Z.ltb_lt in Hn.
      destruct (exponent_valid (c :: r) H) as [Hpl Hq].
      split; [|split].
      * now rewrite Hp1.
      * now apply Hhead.
      * rewrite Z.add_0_r.
        assert ((n1 =? 0)%Z = false) as -> by (apply Z.eqb_neq; lia).
        apply Hq.
Qed.

(** [Number] on a valid floating-point text is never [NaN]. *)
Lemma Number_valid text :
  validFloat text = true -> exists q, Num.Number text = Num.round64 q.
Proof.
  unfold validFloat, Num.Number. intros H.
  destruct (list_ascii_of_string text) as [|c r]; [discriminate H|].
  destruct (c =? "-")%char eqn:Em.
  - apply Ascii.eqb_eq in Em. subst c.
    destruct (validUnsigned_parse r H)
      as (Hpl & (c & r' & -> & HI & _) & q & Hq).
    assert (forallb plain ("-"%char :: c :: r') = true) as Hall
      by (change (plain "-" && forallb plain (c :: r') = true);
          now rewrite Hpl).
    rewrite (trim_id _ Hall).
    change (Num.parse_nondecimal ("-"%char :: c :: r')) with (@None Z).
    cbv beta iota. change (Num.split_sign ("-"%char :: c :: r'))
      with (true, c :: r').
    cbv beta iota. cbn [string_of_list_ascii String.eqb]. rewrite HI, Hq.
    eauto.
  - destruct (validUnsigned_parse (c :: r) H)
      as (Hpl & (c' & r' & Ec & HI & Hplus & Hminus) & q & Hq).
    injection Ec as <- <-.
    rewrite (trim_id _ Hpl), (parse_nondecimal_valid _ H).
    rewrite split_sign_eqb, Hplus, Hminus.
    cbn [string_of_list_ascii String.eqb]. rewrite HI, Hq. eauto.
Qed.

Lemma digits_uint_acc d : forall p len,
  Num.digits 10 (Z.pos p) len
    (list_ascii_of_string (NilEmpty.string_of_uint d))
  = (Z.pos (Pos.of_uint_acc d p),
     (len + Z.of_nat (Decimal.nb_digits d))%Z, []).
Proof.
  induction d; intros p len; cbn [NilEmpty.string_of_uint
    list_ascii_of_string Num.digits Pos.of_uint_acc Decimal.nb_digits];
    [ f_equal; f_equal; lia | .. ];
    match goal with
    | |- context [Num.digit_value 10 ?c] =>
        let v := eval vm_compute in (Num.digit_value 10 c) in
        change (Num.digit_value 10 c) with v
    end; cbv beta iota;
    match goal with
    | |- Num.digits 10 ?a _ _ = _ =>
        match goal with
        | |- _ = (Z.pos ?b, _, _) =>
            match b with
            | Pos.of_uint_acc _ ?q => replace a with (Z.pos q) by lia
            end
        end
    end; rewrite IHd; f_equal; f_equal; lia.
Qed.

Lemma digits_uint d : forall len,
  Num.digits 10 0 len (list_ascii_of_string (NilEmpty.string_of_uint d))
  = (Z.of_N (Pos.of_uint d),
     (len + Z.of_nat (Decimal.nb_digits d))%Z, []).
Proof.
  induction d; intros len; cbn [NilEmpty.string_of_uint
    list_ascii_of_string Num.digits Pos.of_uint Decimal.nb_digits];
    [ f_equal; f_equal; lia | .. ];
    match goal with
    | |- context [Num.digit_value 10 ?c] =>
        let v := eval vm_compute in (Num.digit_value 10 c) in
        change (Num.digit_value 10 c) with v
    end; cbv beta iota.
  1: rewrite IHd; f_equal; f_equal; lia.
  all: cbn [Z.mul Z.add Z.of_N]; rewrite digits_uint_acc;
    f_equal; f_equal; lia.
Qed.

Lemma uint_head d :
  d <> Decimal.Nil ->
  exists c r v,
    list_ascii_of_string (NilEmpty.string_of_uint d) = c :: r
    /\ Num.digit_value 10 c = Some v.
Proof.
  intros Hd. destruct d; [congruence| ..];
    cbn [NilEmpty.string_of_uint list_ascii_of_string];
    do 3 eexists; (split; [reflexivity|]); vm_compute; reflexivity.
Qed.

(** A decimal numeral is a valid text of the control. *)
Lemma validFloat_uint d :
  d <> Decimal.Nil -> validFloat (NilEmpty.string_of_uint d) = true.
Proof.
  intros Hd. unfold validFloat.
  destruct (uint_head d Hd) as (c & r & v & E & Hv).
  destruct (digit_not_letter c v Hv) as (_ & _ & _ & Hm).
  pose proof (digits_uint d 0) as D. rewrite E in *. rewrite Hm.
  unfold validUnsigned. rewrite D.
  apply andb_true_intro. split; [|reflexivity].
  apply Z.ltb_lt. destruct d; simpl; try congruence; lia.
Qed.

(** A decimal numeral below [2^53] converts to its value. *)
Lemma Number_decimal d :
  d <> Decimal.Nil -> (Z.of_uint d < 2 ^ 53)%Z ->
  Num.Number (NilEmpty.string_of_uint d) = Num.of_Z (Z.of_uint d).
Proof.
  intros Hd Hlt. pose proof (validFloat_uint d Hd) as Hv.
  unfold validFloat in Hv. unfold Num.Number.
  destruct (uint_head d Hd) as (c & r & v & E & Hc).
  destruct (digit_not_letter c v Hc) as (_ & HI & Hp & Hm).
  pose proof (digits_uint d 0) as D. rewrite E in *. rewrite Hm in Hv.
  destruct (validUnsigned_parse _ Hv) as (Hpl & _ & _).
  rewrite (trim_id _ Hpl), (parse_nondecimal_valid _ Hv).
  rewrite split_sign_eqb, Hp, Hm.
  cbn [string_of_list_ascii String.eqb]. rewrite HI.
  rewrite parse_decimal_eqb, D.
  assert ((0 + Z.of_nat (Decimal.nb_digits d) + 0 =? 0)%Z = false) as ->.
  { apply Z.eqb_neq. destruct d; simpl; try congruence; lia. }
  unfold Num.of_Z.
  rewrite (round64_comp _ (inject_Z (Z.of_uint d))).
  - apply round64_Z. unfold Z.of_uint in *. lia.
  - unfold Z.of_uint. change (Num.pow10 (- 0)) with (inject_Z 1).
    rewrite <- inject_Z_mult. now rewrite Z.mul_1_r.
Qed.

(* ------------------------------------------------------------------ *)
(** ** Numeric controls of the form *)

(** C3 (as the code has it). For a control of type number the handler
    stores [Number(value)] in the draft, where the validation of a later
    submit reads it, and changes nothing else that is shown.  The
    control hands over the text typed when it is a valid floating-point
    number and the empty text otherwise, so that any other input is
    stored as 0, a decimal numeral below [2^53] as its integer value,
    and never NaN. *)
Theorem numeric_input_is_Number (i : input) (text : string) (s : state) :
  typeOf i = "number" ->
  (forall value,
     let s' := handleInputChange i value s in
     fieldOf i (newVehicle s') = VNum (Num.Number value)
     /\ vehicles s' = vehicles s
     /\ error s' = error s)
  /\ (validFloat text = false -> Num.Number (delivered text) = Num.zero)
  /\ (forall d, d <> Decimal.Nil -> text = NilEmpty.string_of_uint d ->
      (Z.of_uint d < 2 ^ 53)%Z ->
      Num.Number (delivered text) = Num.of_Z (Z.of_uint d))
  /\ Num.Number (delivered text) <> NaN.
Proof.
  intros Hty. split; [|split; [|split]].
  - intros value s'. repeat split.
    destruct i; try discriminate; reflexivity.
  - unfold delivered. intros ->. reflexivity.
  - intros d Hd -> Hlt. unfold delivered.
    rewrite (validFloat_uint d Hd). now apply Number_decimal.
  - unfold delivered. destruct (validFloat text) eqn:Hv; [|discriminate].
    destruct (Number_valid text Hv) as (q & ->). apply round64_not_NaN.
Qed.

(** Typing "abc", and typing "5000", into the mileage control of the
    initial form. *)
Lemma numeric_input_is_Number_witness :
  mileage (newVehicle
             (handleInputChange InMileage (delivered "abc") initialState))
  = Num.zero
  /\ Num.Number (delivered "5000") = Num.of_Z 5000.
Proof.
  destruct (numeric_input_is_Number InMileage "abc" initialState eq_refl)
    as (_ & Hzero & _).
  destruct (numeric_input_is_Number InMileage "5000" initialState eq_refl)
    as (_ & _ & Hnum & _).
  split.
  - exact (Hzero eq_refl).
  - apply (Hnum (Decimal.D5 (Decimal.D0 (Decimal.D0 (Decimal.D0
             Decimal.Nil))))); [discriminate | reflexivity | reflexivity].
Defined.

(** C3 as stated fails on the parsing to an integer: the text "12.5" is
    a valid text of the control and is stored as the fraction 12.5. *)
Lemma numeric_input_not_integer :
  let typed := fun text =>
    mileage (newVehicle
               (handleInputChange InMileage (delivered text) initialState)) in
  validFloat "12.5" = true
  /\ typed "12.5" = Fin (25 # 2)
  /\ Num.is_integer (typed "12.5") = false.
Proof. cbv zeta. split; [|split]; vm_compute; reflexivity. Qed.

(* ------------------------------------------------------------------ *)
(** ** More on submitting the form *)

Section SubmissionOutcomes.

Variable rejects : collection -> vehicle -> bool.
Variable newId : collection -> string.

(** X1. A submit either persists the draft or keeps it.  Whatever the
    state and the store: either the collection is unchanged, the draft
    and the modal are left as they were and an error message is set; or
    the collection gained exactly one document, made of the draft with
    an id and a creation time, and then the draft is back to the default
    one, the modal is closed and the error is cleared. *)
Theorem handleAddVehicle_saves_or_keeps (s : state) (c : collection) :
  let result := handleAddVehicle rejects newId s c in
  let s' := fst (fst result) in
  (snd (fst result) = c
   /\ newVehicle s' = newVehicle s
   /\ isModalOpen s' = isModalOpen s
   /\ error s' <> None)
  \/ (snd (fst result) = c ++ [stored newId c (payloadOf (newVehicle s))]
      /\ newVehicle s' = defaultVehicle
      /\ isModalOpen s' = false
      /\ error s' = None
      /\ notReady s = false
      /\ validate (newVehicle s) = None
      /\ rejects c (payloadOf (newVehicle s)) = false).
Proof.
  unfold handleAddVehicle, validate. rewrite !nonempty_eqb.
  destruct (notReady s); [left; simpl; repeat split; discriminate|].
  destruct ((make (newVehicle s) =? "")%string
            || (or_empty (model (newVehicle s)) =? "")%string
            || (vin (newVehicle s) =? "")%string);
    [left; simpl; repeat split; discriminate|].
  destruct (Num.gt (mileage (newVehicle s))
              (nextServiceMileage (newVehicle s)));
    [left; simpl; repeat split; discriminate|].
  unfold addDoc.
  destruct (rejects c (payloadOf (newVehicle s)));
    [left; simpl; repeat split; discriminate|].
  right. simpl. repeat split.
Qed.


End SubmissionOutcomes.

Lemma handleAddVehicle_saves_or_keeps_witness :
  let ready := mkState true (Some "u") [] false None true
                 (mkVehicle None "Ford" (Some "Transit") (VStr "") "V1"
                    (Num.of_Z 10) (Num.of_Z 20) "Diesel" "Active" None) in
  List.length
    (snd (fst (handleAddVehicle (fun _ _ => false) (fun _ => "id") ready [])))
  = 1%nat.
Proof.
  intros ready.
  destruct (handleAddVehicle_saves_or_keeps (fun _ _ => false)
              (fun _ => "id") ready []) as [(_ & _ & _ & H) | (H & _)].
  - exfalso. apply H. reflexivity.
  - rewrite H. reflexivity.
Defined.


(* ------------------------------------------------------------------ *)
(** ** Editing the form *)

(** X3. An edit writes the property of its control and nothing else:
    the other six properties of the draft, its status, id and creation
    time, and the rest of the component state are unchanged; a control
    that is not of type number stores the text as typed. *)
Theorem handleInputChange_frame (i : input) (value : string) (s : state) :
  let s' := handleInputChange i value s in
  (forall j, j <> i ->
     fieldOf j (newVehicle s') = fieldOf j (newVehicle s))
  /\ status (newVehicle s') = status (newVehicle s)
  /\ id (newVehicle s') = id (newVehicle s)
  /\ createdAt (newVehicle s') = createdAt (newVehicle s)
  /\ setNewVehicle (newVehicle s) s' = s
  /\ (typeOf i <> "number" -> fieldOf i (newVehicle s') = VStr value).
Proof.
  destruct s as [d u vs l e m nv]. simpl. repeat split.
  - intros j Hj. destruct i, j; try congruence; reflexivity.
  - destruct i; reflexivity.
  - destruct i; reflexivity.
  - destruct i; reflexivity.
  - destruct i; simpl; congruence.
Qed.

(** X4. Edits compose as assignments: a second edit of the same control
    replaces the first, and edits of two different controls can be made
    in either order. *)
Theorem handleInputChange_compose
  (i j : input) (v1 v2 : string) (s : state) :
  handleInputChange i v2 (handleInputChange i v1 s)
  = handleInputChange i v2 s
  /\ (i <> j ->
      handleInputChange j v2 (handleInputChange i v1 s)
      = handleInputChange i v1 (handleInputChange j v2 s)).
Proof.
  destruct s as [d u vs l e m nv]. destruct nv. split.
  - destruct i; reflexivity.
  - intros Hij. destruct i, j; try congruence; reflexivity.
Qed.

Lemma handleInputChange_compose_witness :
  handleInputChange InVin "B" (handleInputChange InMake "A" initialState)
  = handleInputChange InMake "A" (handleInputChange InVin "B" initialState).
Proof.
  apply (proj2 (handleInputChange_compose InMake InVin "A" "B" initialState)).
  discriminate.
Defined.

Section BlankFields.

Variable rejects : collection -> vehicle -> bool.
Variable newId : collection -> string.

(** X5. The first rule only rejects empty text.  Once make, model and
    vin have each been typed with at least one character, be it a
    space, a submit with the connection ready and mileage not above
    nextServiceMileage issues the insertion, with the three texts
    exactly as they were typed. *)
Theorem any_nonempty_text_passes_rule_one
  (a b c : ascii) (ra rb rc : string) (s : state) (col : collection) :
  notReady s = false ->
  Num.gt (mileage (newVehicle s)) (nextServiceMileage (newVehicle s))
  = false ->
  let s' := edited [(InMake, String a ra); (InModel, String b rb);
                    (InVin, String c rc)] s in
  exists rest,
    snd (handleAddVehicle rejects newId s' col)
    = AddDoc (payloadOf (newVehicle s')) :: rest
    /\ make (payloadOf (newVehicle s')) = String a ra
    /\ model (payloadOf (newVehicle s')) = Some (String b rb)
    /\ vin (payloadOf (newVehicle s')) = String c rc.
Proof.
  intros Hready Hgt s'.
  assert (notReady s' = false) as Hready'
    by (unfold s'; now rewrite edited_notReady).
  pose proof (handleAddVehicle_validate rejects newId s' col Hready') as H.
  unfold validate in H.
  destruct s as [d u vs l e m nv]. simpl in *. rewrite Hgt in H.
  destruct H as [rest H]. exists rest. repeat split. exact H.
Qed.

End BlankFields.

Lemma any_nonempty_text_passes_rule_one_witness :
  let ready := mkState true (Some "u") [] false None true defaultVehicle in
  let s' := edited [(InMake, " "); (InModel, " "); (InVin, " ")] ready in
  exists rest,
    snd (handleAddVehicle (fun _ _ => false) (fun _ => "id") s' [])
    = AddDoc (payloadOf (newVehicle s')) :: rest
    /\ make (payloadOf (newVehicle s')) = " "
    /\ model (payloadOf (newVehicle s')) = Some " "
    /\ vin (payloadOf (newVehicle s')) = " ".
Proof.
  intros ready s'.
  apply (any_nonempty_text_passes_rule_one (fun _ _ => false) (fun _ => "id")
           " "%char " "%char " "%char "" "" "" ready [] eq_refl eq_refl).
Defined.

(* ------------------------------------------------------------------ *)
(** ** More on seeding *)

Section SeedingInvariants.

Variable rejects : collection -> vehicle -> bool.
Variable newId : collection -> string.

Lemma allAccepted_nil c : allAccepted rejects newId c [].
Proof. intros p1 x p2 E. destruct p1; discriminate E. Qed.

Lemma allAccepted_cons c a pre :
  rejects c (payloadOf a) = false ->
  allAccepted rejects newId (c ++ [stored newId c (payloadOf a)]) pre ->
  allAccepted rejects newId c (a :: pre).
Proof.
  intros Ha Hpre p1 x p2 E. destruct p1 as [|b p1].
  - injection E as <- <-. exact Ha.
  - injection E as <- ->. exact (Hpre p1 x p2 eq_refl).
Qed.

(** Every batch is accepted whole, or has a first element the store
    rejects. *)
Lemma first_failure_exists batch : forall c,
  allAccepted rejects newId c batch
  \/ exists pre v post,
       batch = pre ++ v :: post
       /\ allAccepted rejects newId c pre
       /\ rejects (persisted newId c (map payloadOf pre)) (payloadOf v)
          = true.
Proof.
  induction batch as [|a batch IH]; intros c.
  - left. apply allAccepted_nil.
  - destruct (rejects c (payloadOf a)) eqn:Ha.
    + right. exists [], a, batch.
      split; [reflexivity|]. split; [apply allAccepted_nil | exact Ha].
    + destruct (IH (c ++ [stored newId c (payloadOf a)]))
        as [Hall | (pre & v & post & -> & Hpre & Hv)].
      * left. now apply allAccepted_cons.
      * right. exists (a :: pre), v, post.
        split; [reflexivity|]. split; [now apply allAccepted_cons|].
        exact Hv.
Qed.

Lemma persisted_prefix c payloads :
  exists docs, persisted newId c payloads = c ++ docs
               /\ List.length docs = List.length payloads.
Proof.
  revert c. induction payloads as [|p payloads IH]; intros c; simpl.
  - exists []. now rewrite app_nil_r.
  - destruct (IH (c ++ [stored newId c p])) as (docs & -> & Hlen).
    exists (stored newId c p :: docs). rewrite <- app_assoc.
    split; [reflexivity|]. simpl. now rewrite Hlen.
Qed.

(** X6. Seeding only ever appends, and every run of it is one of three.
    The vehicles shown are not touched and the documents held before
    stay in place at the front of the collection.  Either the connection
    is not ready: nothing is inserted and that error is set.  Or the
    store accepts every element: the collection gains one document per
    element, in order, and the success message is set.  Or some element
    is the first the store rejects: the collection gains one document
    per element before it, the insertions issued are those and the
    rejected one, and the failure message is set. *)
Theorem seeding_only_appends
  (batch : list vehicle) (s : state) (c : collection) :
  let result := loadVehicles rejects newId batch s c in
  let issued := filter isAddDoc (snd result) in
  vehicles (fst (fst result)) = vehicles s
  /\ (exists docs, snd (fst result) = c ++ docs
                   /\ (List.length docs <= List.length batch)%nat)
  /\ ((notReady s = true
       /\ snd (fst result) = c
       /\ issued = []
       /\ error (fst (fst result)) = Some "Database connection not ready.")
      \/ (notReady s = false
          /\ allAccepted rejects newId c batch
          /\ snd (fst result) = persisted newId c (map payloadOf batch)
          /\ issued = map AddDoc (map payloadOf batch)
          /\ error (fst (fst result))
             = Some "Sample data loaded successfully!")
      \/ (notReady s = false
          /\ exists pre v post,
               batch = pre ++ v :: post
               /\ allAccepted rejects newId c pre
               /\ rejects (persisted newId c (map payloadOf pre))
                    (payloadOf v) = true
               /\ snd (fst result)
                  = persisted newId c (map payloadOf pre)
               /\ issued = map AddDoc (map payloadOf (pre ++ [v]))
               /\ error (fst (fst result))
                  = Some "Failed to load sample data. Check console.")).
Proof.
  cbv zeta. unfold loadVehicles.
  destruct (notReady s) eqn:Hready.
  - cbn [fst snd]. split; [reflexivity|]. split.
    + exists []. rewrite app_nil_r. split; [reflexivity|]. simpl. lia.
    + left. repeat split.
  - destruct (first_failure_exists batch c)
      as [Hall | (pre & v & post & -> & Hpre & Hv)].
    + rewrite (addAll_all_accepted rejects newId batch c Hall).
      cbn [fst snd].
      destruct (filter_isAddDoc_calls (map payloadOf batch)) as [F1 _].
      split; [reflexivity|]. split.
      * destruct (persisted_prefix c (map payloadOf batch))
          as (docs & -> & Hlen).
        exists docs. split; [reflexivity|].
        rewrite Hlen, length_map. lia.
      * right. left. split; [reflexivity|]. split; [exact Hall|].
        split; [reflexivity|]. split; [|reflexivity].
        rewrite filter_app, F1. simpl. now rewrite app_nil_r.
    + rewrite (addAll_first_failure rejects newId pre v post c Hpre Hv).
      cbn [fst snd].
      destruct (filter_isAddDoc_calls (map payloadOf (pre ++ [v])))
        as [F1 _].
      split; [reflexivity|]. split.
      * destruct (persisted_prefix c (map payloadOf pre))
          as (docs & -> & Hlen).
        exists docs. split; [reflexivity|].
        rewrite Hlen, length_map, length_app. lia.
      * right. right. split; [reflexivity|].
        exists pre, v, post. split; [reflexivity|]. split; [exact Hpre|].
        split; [exact Hv|]. split; [reflexivity|]. split; [|reflexivity].
        rewrite filter_app, F1. simpl. now rewrite app_nil_r.
Qed.

End SeedingInvariants.

(* ------------------------------------------------------------------ *)
(** ** More on the listener *)

Lemma mapDocs_spread docs fetched :
  mapDocs docs = Some fetched -> map spread docs = map Some fetched.
Proof.
  revert fetched. induction docs as [|d docs IH]; intros fetched; simpl.
  - now intros [= <-].
  - destruct (spread d) as [v|]; [|discriminate].
    destruct (mapDocs docs) as [vs|]; [|discriminate].
    intros [= <-]. simpl. now rewrite (IH vs eq_refl).
Qed.

Lemma mapDocs_length docs fetched :
  mapDocs docs = Some fetched -> List.length fetched = List.length docs.
Proof.
  intros H. apply mapDocs_spread in H.
  rewrite <- (length_map spread docs), H. now rewrite length_map.
Qed.

(** X7. Decoding a delivery keeps every document, in the order of the
    delivery: the records are as many as the documents, and the k-th
    record is the data of the k-th document with the document id put in
    front, unless the data has an [id] field of its own, which then
    stays. *)
Theorem mapDocs_keeps_documents
  (docs : list docSnapshot) (fetched : list vehicle) :
  mapDocs docs = Some fetched ->
  List.length fetched = List.length docs
  /\ Forall2
       (fun d v =>
          exists f, doc_data d = Some f
            /\ set_id (id f) v = f
            /\ id v = Some (match id f with
                            | Some own => own
                            | None => doc_id d
                            end))
       docs fetched.
Proof.
  revert fetched. induction docs as [|d docs IH]; intros fetched; simpl.
  - intros [= <-]. split; [reflexivity|constructor].
  - unfold spread. destruct (doc_data d) as [f|] eqn:Hf; [|discriminate].
    destruct (mapDocs docs) as [vs|]; [|discriminate].
    intros [= <-]. destruct (IH vs eq_refl) as [Hlen HF].
    split; [simpl; now rewrite Hlen|].
    constructor; [|exact HF].
    exists f. destruct f as [i ? ? ? ? ? ? ? ? ?]. simpl.
    destruct i; simpl; auto.
Qed.

Lemma mapDocs_keeps_documents_witness :
  let docs := [mkDoc "a" (Some defaultVehicle);
               mkDoc "b" (Some (set_id (Some "own") defaultVehicle))] in
  List.length (map id [set_id (Some "a") defaultVehicle;
                       set_id (Some "own") defaultVehicle])
  = List.length docs.
Proof.
  intros docs.
  apply (proj1 (mapDocs_keeps_documents docs _ eq_refl)).
Defined.

Lemma Permutation_filter_same {A} (f : A -> bool) l1 l2 :
  Permutation l1 l2 -> Permutation (filter f l1) (filter f l2).
Proof.
  induction 1 as [|x l1 l2 _ IH|x y l|l1 l2 l3 _ IH1 _ IH2]; simpl.
  - constructor.
  - destruct (f x); [now constructor|exact IH].
  - destruct (f x), (f y); try reflexivity. apply perm_swap.
  - now transitivity (filter f l2).
Qed.

Lemma all_equal_repeat {A} (e : A) l :
  Forall (eq e) l -> l = repeat e (List.length l).
Proof.
  induction 1 as [|x l <- _ IH]; simpl; [reflexivity|]. now rewrite <- IH.
Qed.

Section SortOrderFacts.

Variable cmp : vehicle -> vehicle -> Z.
Hypothesis cmp_sym : forall a b, Z.sgn (cmp a b) = (- Z.sgn (cmp b a))%Z.
Hypothesis cmp_trans :
  forall a b c, (cmp a b <= 0 -> cmp b c <= 0 -> cmp a c <= 0)%Z.

Lemma sort_idempotent l : sort cmp (sort cmp l) = sort cmp l.
Proof.
  symmetry. apply (sort_unique cmp cmp_sym cmp_trans).
  - apply (sort_sorted cmp cmp_sym cmp_trans).
  - reflexivity.
Qed.

Lemma class_all_equal z l :
  noTies cmp l ->
  forall e, In e (filter (fun y => (cmp z y =? 0)%Z) l) ->
  Forall (eq e) (filter (fun y => (cmp z y =? 0)%Z) l).
Proof.
  intros Hties e He. apply Forall_forall. intros x Hx.
  apply filter_In in He as [He1 He2]. apply filter_In in Hx as [Hx1 Hx2].
  apply Z.eqb_eq in He2, Hx2. apply Hties; auto.
  pose proof (cmp_equiv cmp cmp_sym cmp_trans z e x He2 Hx2).
  pose proof (cmp_equiv cmp cmp_sym cmp_trans z x e Hx2 He2).
  pose proof (cmp_sym e x). lia.
Qed.

Lemma sort_order_independent l1 l2 :
  Permutation l1 l2 -> noTies cmp l1 -> sort cmp l1 = sort cmp l2.
Proof.
  intros Hperm Hties.
  apply (sorted_stable_unique cmp cmp_sym);
    try apply (sort_sorted cmp cmp_sym cmp_trans).
  intros z. rewrite !(sort_stable cmp cmp_sym cmp_trans).
  pose proof (Permutation_filter_same (fun y => (cmp z y =? 0)%Z) _ _ Hperm)
    as Hp.
  destruct (filter (fun y => (cmp z y =? 0)%Z) l1) as [|e t] eqn:E1.
  - now apply Permutation_nil in Hp.
  - assert (Forall (eq e) (e :: t)) as F1.
    { rewrite <- E1. apply class_all_equal; auto. rewrite E1. now left. }
    assert (Forall (eq e) (filter (fun y => (cmp z y =? 0)%Z) l2)) as F2.
    { eapply Permutation_Forall; eauto. }
    rewrite (all_equal_repeat e _ F1), (all_equal_repeat e _ F2).
    now rewrite (Permutation_length Hp).
Qed.

End SortOrderFacts.

Lemma spread_mapDocs docs fetched :
  map spread docs = map Some fetched -> mapDocs docs = Some fetched.
Proof.
  revert fetched. induction docs as [|d docs IH]; intros [|v vs]; simpl;
    try discriminate; [reflexivity|].
  intros [= -> H]. now rewrite (IH vs H).
Qed.

Lemma mapDocs_permutation docs1 docs2 f1 :
  Permutation docs1 docs2 -> mapDocs docs1 = Some f1 ->
  exists f2, mapDocs docs2 = Some f2 /\ Permutation f1 f2.
Proof.
  intros Hperm H1. apply mapDocs_spread in H1.
  pose proof (Permutation_map spread Hperm) as Hp. rewrite H1 in Hp.
  apply Permutation_sym, Permutation_map_inv in Hp as (f2 & E & Hp).
  exists f2. split; [now apply spread_mapDocs|exact Hp].
Qed.

(* ------------------------------------------------------------------ *)
(** ** Statistics and badges *)

Lemma isServiceDue_urgent v : isServiceDue v = urgent v.
Proof.
  unfold isServiceDue, urgent, getStatusBadge.
  destruct (status v =? "In Maintenance")%string;
    destruct (Num.ge (mileage v) (nextServiceMileage v)); reflexivity.
Qed.

Lemma filter_partition_length {A} (f : A -> bool) l :
  (List.length (filter f l) + List.length (filter (fun x => negb (f x)) l)
   = List.length l)%nat.
Proof.
  induction l as [|x l IH]; simpl; [reflexivity|].
  destruct (f x); simpl; lia.
Qed.

Lemma serviceDue_urgent vs : serviceDue vs = List.length (filter urgent vs).
Proof.
  unfold serviceDue. f_equal. apply filter_ext. exact isServiceDue_urgent.
Qed.

(** X8. The counters follow the badges.  serviceDue is the number of
    records whose badge is 'In Maintenance' or 'Service Due', and
    totalVehicles is serviceDue plus the number of records with the
    badge 'Active'.  Every record counted by activeVehicles has the
    badge 'Active'; a record with the badge 'Active' is left out of
    activeVehicles exactly when its status is not "Active" or its
    mileage does not compare below nextServiceMileage. *)
Theorem counters_follow_badges (vs : list vehicle) :
  serviceDue vs = List.length (filter urgent vs)
  /\ (totalVehicles vs
      = serviceDue vs
        + List.length (filter (fun v => negb (urgent v)) vs))%nat
  /\ (activeVehicles vs
      <= List.length (filter (fun v => negb (urgent v)) vs))%nat
  /\ (forall v, isActive v = true -> getStatusBadge v = Active)
  /\ (forall v, getStatusBadge v = Active ->
        (isActive v = false <->
         status v <> "Active"
         \/ Num.lt (mileage v) (nextServiceMileage v) = false)).
Proof.
  assert (forall v, isActive v = true -> getStatusBadge v = Active) as Hact.
  { intros v H. pose proof (isActive_isServiceDue v H) as Hd.
    rewrite isServiceDue_urgent in Hd. unfold urgent in Hd.
    destruct (getStatusBadge v); congruence. }
  assert (serviceDue vs = List.length (filter urgent vs)) as Hdue.
  { unfold serviceDue. f_equal. apply filter_ext. exact isServiceDue_urgent. }
  split; [exact Hdue|]. split; [|split; [|split]].
  - rewrite Hdue. unfold totalVehicles.
    now rewrite filter_partition_length.
  - unfold activeVehicles.
    induction vs as [|v vs IH]; simpl; [lia|].
    assert (serviceDue vs = List.length (filter urgent vs)) as Hdue'.
    { unfold serviceDue. f_equal. apply filter_ext.
      exact isServiceDue_urgent. }
    specialize (IH Hdue').
    destruct (isActive v) eqn:Ha.
    + apply Hact in Ha. unfold urgent at 1. rewrite Ha. simpl. lia.
    + destruct (negb (urgent v)); simpl; lia.
  - exact Hact.
  - intros v Hb. unfold isActive.
    rewrite andb_false_iff, String.eqb_neq. tauto.
Qed.

Lemma Permutation_filter_length {A} (f : A -> bool) l1 l2 :
  Permutation l1 l2 ->
  List.length (filter f l1) = List.length (filter f l2).
Proof.
  intros H. apply Permutation_length. now apply Permutation_filter_same.
Qed.

(* ------------------------------------------------------------------ *)
(** ** Sums of whole mileages do not depend on the order *)

Lemma sumMiles_permutation l1 l2 :
  Permutation l1 l2 -> sumMiles l1 = sumMiles l2.
Proof.
  unfold sumMiles.
  induction 1 as [|x l1 l2 _ IH|x y l|l1 l2 l3 _ IH1 _ IH2]; simpl.
  - reflexivity.
  - now rewrite IH.
  - lia.
  - now rewrite IH1.
Qed.

(** Sums of fractions do: each addition is rounded, and the three
    mileages 0.1, 0.2 and 0.3 total 0.6000000000000001 in this order and
    0.6 in the reverse one. *)
Lemma totalMileage_order :
  let record x :=
    mkVehicle None "" None (VNum Num.zero) "" (Num.Number x)
      Num.zero "" "Active" None in
  totalMileage [record "0.1"; record "0.2"; record "0.3"]
  = Num.Number "0.6000000000000001"
  /\ totalMileage [record "0.3"; record "0.2"; record "0.1"]
     = Num.Number "0.6".
Proof. cbv zeta. split; vm_compute; reflexivity. Qed.

(* ------------------------------------------------------------------ *)
(** ** The view and its statistics *)

(** X9. Reordering does not change the counts, nor the mileage
    statistics of whole mileages.  When a delivery decodes, the
    statistics computed on the vehicles held afterwards are those of the
    decoded records in delivery order: totalVehicles is the number of
    documents, activeVehicles and serviceDue are unchanged; and when the
    mileages are non-negative whole numbers (or missing) that total less
    than [2^53], totalMileage is the same number and avgMileage the same
    value. *)
Theorem statistics_of_the_view
  (localeCompare : string -> string -> Z)
  (docs : list docSnapshot) (fetched : list vehicle) (s : state) :
  mapDocs docs = Some fetched ->
  let view := vehicles (fst (onSnapshotNext localeCompare docs s)) in
  totalVehicles view = List.length docs
  /\ activeVehicles view = activeVehicles fetched
  /\ serviceDue view = serviceDue fetched
  /\ (Forall wholeMiles fetched -> (sumMiles fetched < 2 ^ 53)%Z ->
      totalMileage view = totalMileage fetched
      /\ avgMileage view = avgMileage fetched).
Proof.
  intros Hdec view. subst view. unfold onSnapshotNext. rewrite Hdec. simpl.
  pose proof (sort_perm (compareVehicles localeCompare) fetched) as Hp.
  apply Permutation_sym in Hp.
  assert (totalVehicles (sort (compareVehicles localeCompare) fetched)
          = totalVehicles fetched) as Hlen
    by (apply Permutation_length; exact Hp).
  split; [|split; [|split]].
  - rewrite Hlen. apply (mapDocs_length docs fetched Hdec).
  - apply Permutation_filter_length; exact Hp.
  - apply Permutation_filter_length; exact Hp.
  - intros Hwhole Hlt.
    assert (totalMileage (sort (compareVehicles localeCompare) fetched)
            = totalMileage fetched) as Hsum.
    { rewrite (totalMileage_whole fetched Hwhole Hlt).
      rewrite <- (sumMiles_permutation _ _ Hp) in *.
      apply totalMileage_whole; [|exact Hlt].
      apply (Permutation_Forall (Permutation_sym Hp)). exact Hwhole. }
    split; [exact Hsum|].
    unfold avgMileage. now rewrite Hlen, Hsum.
Qed.

Lemma statistics_of_the_view_witness :
  let docs := map (fun v => mkDoc (vin v) (Some v)) sampleVehicles in
  avgMileage (vehicles (fst (onSnapshotNext codeCompare docs initialState)))
  = VStr "73000".
Proof.
  intros docs.
  destruct (statistics_of_the_view codeCompare docs _ initialState eq_refl)
    as (_ & _ & _ & H).
  lapply H; [clear H; intros H|].
  - lapply H; [clear H; intros [_ H]|].
    + rewrite H. reflexivity.
    + reflexivity.
  - repeat (apply Forall_cons;
            [right; eexists; split; [|reflexivity]; discriminate|]).
    apply Forall_nil.
Defined.

(** X10. A delivery that follows a failed one replaces the vehicles but
    not the message: after a delivery that could not be decoded and a
    later one that can, the vehicles are those of the later delivery and
    the error is still "Could not load fleet data.". *)
Theorem error_survives_next_delivery
  (localeCompare : string -> string -> Z)
  (bad good : list docSnapshot) (fetched : list vehicle) (s : state) :
  mapDocs bad = None -> mapDocs good = Some fetched ->
  let s1 := fst (onSnapshotNext localeCompare bad s) in
  let s2 := fst (onSnapshotNext localeCompare good s1) in
  vehicles s2 = sort (compareVehicles localeCompare) fetched
  /\ error s2 = Some "Could not load fleet data."
  /\ isLoading s2 = false.
Proof.
  intros Hbad Hgood. unfold onSnapshotNext. rewrite Hbad, Hgood. simpl.
  auto.
Qed.

Lemma error_survives_next_delivery_witness :
  error (fst (onSnapshotNext codeCompare [mkDoc "a" (Some defaultVehicle)]
                (fst (onSnapshotNext codeCompare [mkDoc "b" None]
                        initialState))))
  = Some "Could not load fleet data.".
Proof.
  apply (proj1 (proj2 (error_survives_next_delivery codeCompare
                         [mkDoc "b" None] [mkDoc "a" (Some defaultVehicle)]
                         _ initialState eq_refl eq_refl))).
Defined.

Lemma sorted_by_bucket (cmp : vehicle -> vehicle -> Z) l :
  (forall a b, (cmp a b <= 0)%Z -> urgent b = true -> urgent a = true) ->
  StronglySorted (fun a b => (cmp a b <= 0)%Z) l ->
  l = filter urgent l ++ filter (fun v => negb (urgent v)) l.
Proof.
  intros Hb. induction 1 as [|x l Hs IH Hx]; simpl; [reflexivity|].
  destruct (urgent x) eqn:Ex; simpl.
  - now rewrite <- IH.
  - assert (Forall (fun y => urgent y = false) l) as Hnone.
    { eapply Forall_impl; [|exact Hx]. intros y Hy. simpl in Hy.
      destruct (urgent y) eqn:Ey; [|reflexivity].
      rewrite (Hb x y Hy Ey) in Ex. discriminate. }
    assert (filter urgent l = []) as ->.
    { clear -Hnone. induction Hnone as [|y l Hy _ IH]; simpl;
        [reflexivity|]. now rewrite Hy. }
    simpl. f_equal.
    clear -Hnone. induction Hnone as [|y l Hy _ IH]; simpl;
      [reflexivity|]. rewrite Hy. simpl. now f_equal.
Qed.

Section ViewLayout.

Variable localeCompare : string -> string -> Z.
Hypothesis localeCompare_sym :
  forall a b, Z.sgn (localeCompare a b) = (- Z.sgn (localeCompare b a))%Z.
Hypothesis localeCompare_trans :
  forall a b c, (localeCompare a b <= 0 -> localeCompare b c <= 0 ->
                 localeCompare a c <= 0)%Z.

(** X11. The table starts with the urgent rows, and their number is the
    serviceDue statistic: the vehicles held after a delivery are its
    first serviceDue records, all with the badge 'In Maintenance' or
    'Service Due', followed by records that all have the badge
    'Active'. *)
Theorem urgent_rows_first
  (docs : list docSnapshot) (fetched : list vehicle) (s : state) :
  mapDocs docs = Some fetched ->
  let view := vehicles (fst (onSnapshotNext localeCompare docs s)) in
  Forall (fun v => getStatusBadge v <> Active) (firstn (serviceDue view) view)
  /\ Forall (fun v => getStatusBadge v = Active)
       (skipn (serviceDue view) view)
  /\ serviceDue view = serviceDue fetched.
Proof.
  intros Hdec view.
  assert (view = sort (compareVehicles localeCompare) fetched) as Hview.
  { unfold view, onSnapshotNext. now rewrite Hdec. }
  pose proof (sorted_by_bucket (compareVehicles localeCompare) view) as Hsplit.
  rewrite Hview in Hsplit at 1 2.
  specialize (Hsplit
    (fun a b H => proj1 (compareVehicles_order localeCompare a b H))).
  rewrite Hview in Hsplit at 1.
  specialize (Hsplit
    (sort_sorted _ (compareVehicles_sym localeCompare localeCompare_sym)
       (compareVehicles_trans localeCompare localeCompare_trans) fetched)).
  rewrite <- Hview in Hsplit.
  assert (serviceDue view = List.length (filter urgent view)) as Hdue
    by apply serviceDue_urgent.
  split; [|split].
  - rewrite Hdue. rewrite Hsplit at 2.
    rewrite firstn_app, Nat.sub_diag, firstn_all. simpl. rewrite app_nil_r.
    apply Forall_forall. intros v Hv. apply filter_In in Hv as [_ Hv].
    unfold urgent in Hv. destruct (getStatusBadge v); congruence.
  - rewrite Hdue. rewrite Hsplit at 2.
    rewrite skipn_app, Nat.sub_diag, skipn_all. simpl.
    apply Forall_forall. intros v Hv. apply filter_In in Hv as [_ Hv].
    unfold urgent in Hv. destruct (getStatusBadge v); simpl in Hv;
      congruence.
  - rewrite Hview. apply Permutation_filter_length.
    apply Permutation_sym, sort_perm.
Qed.

(** X12. The view does not depend on the order in which a delivery
    lists its documents, as long as no two different records tie (same
    bucket and models that compare equal): two deliveries of the same
    documents in different orders leave the same vehicles. *)
Theorem view_independent_of_delivery_order
  (docs1 docs2 : list docSnapshot) (fetched : list vehicle) (s1 s2 : state) :
  Permutation docs1 docs2 ->
  mapDocs docs1 = Some fetched ->
  noTies (compareVehicles localeCompare) fetched ->
  vehicles (fst (onSnapshotNext localeCompare docs1 s1))
  = vehicles (fst (onSnapshotNext localeCompare docs2 s2)).
Proof.
  intros Hperm Hdec Hties.
  destruct (mapDocs_permutation docs1 docs2 fetched Hperm Hdec)
    as (f2 & Hdec2 & Hp).
  unfold onSnapshotNext. rewrite Hdec, Hdec2. simpl.
  apply (sort_order_independent _
           (compareVehicles_sym localeCompare localeCompare_sym)
           (compareVehicles_trans localeCompare localeCompare_trans));
    assumption.
Qed.

(** X13. Delivering the documents again in the order of the vehicles
    held changes nothing: the view produced by a delivery is left as it
    is by a delivery that decodes to that view, ties or not. *)
Theorem view_is_a_fixed_point
  (docs docs' : list docSnapshot) (fetched : list vehicle) (s : state) :
  mapDocs docs = Some fetched ->
  let s1 := fst (onSnapshotNext localeCompare docs s) in
  mapDocs docs' = Some (vehicles s1) ->
  vehicles (fst (onSnapshotNext localeCompare docs' s1)) = vehicles s1.
Proof.
  intros Hdec s1 Hdec'. unfold onSnapshotNext at 1. rewrite Hdec'. simpl.
  unfold s1, onSnapshotNext. rewrite Hdec. simpl.
  apply (sort_idempotent _
           (compareVehicles_sym localeCompare localeCompare_sym)
           (compareVehicles_trans localeCompare localeCompare_trans)).
Qed.

End ViewLayout.

Lemma urgent_rows_first_witness :
  let docs := map (fun v => mkDoc (vin v) (Some v)) sampleVehicles in
  let view := vehicles (fst (onSnapshotNext codeCompare docs initialState)) in
  Forall (fun v => getStatusBadge v <> Active) (firstn 2 view).
Proof.
  intros docs view.
  apply (proj1 (urgent_rows_first codeCompare codeCompare_sym
                  codeCompare_trans docs _ initialState eq_refl)).
Defined.

Lemma view_independent_of_delivery_order_witness :
  let a := mkDoc "a" (Some (set_model (Some "A") defaultVehicle)) in
  let b := mkDoc "b" (Some (set_model (Some "B") defaultVehicle)) in
  vehicles (fst (onSnapshotNext codeCompare [a; b] initialState))
  = vehicles (fst (onSnapshotNext codeCompare [b; a] initialState)).
Proof.
  intros a b.
  apply (view_independent_of_delivery_order codeCompare codeCompare_sym
           codeCompare_trans [a; b] [b; a] _ initialState initialState
           (perm_swap b a []) eq_refl).
  intros x y [<-|[<-|[]]] [<-|[<-|[]]] H;
    try reflexivity; vm_compute in H; discriminate.
Defined.

Lemma view_is_a_fixed_point_witness :
  let docs := map (fun v => mkDoc (vin v) (Some v)) sampleVehicles in
  let s1 := fst (onSnapshotNext codeCompare docs initialState) in
  let docs' := map (fun v => mkDoc (vin v) (Some v)) (vehicles s1) in
  vehicles (fst (onSnapshotNext codeCompare docs' s1)) = vehicles s1.
Proof.
  intros docs s1 docs'.
  apply (view_is_a_fixed_point codeCompare codeCompare_sym
           codeCompare_trans docs docs' _ initialState eq_refl eq_refl).
Defined.

(* ------------------------------------------------------------------ *)
(** ** The row of a vehicle *)

Lemma sub_compare_zero a b :
  Num.compare (NumOps.sub (Fin b) (Fin a)) Num.zero
  = Some (CompOpp (a ?= b)%Q).
Proof.
  unfold NumOps.sub, Num.compare, Num.zero, Num.of_Z. f_equal.
  change (inject_Z 0) with 0.
  destruct (Qcompare_spec a b) as [H|H|H]; cbn [CompOpp].
  - apply Qeq_alt. lra.
  - apply Qgt_alt. lra.
  - change (b - a < 0). lra.
Qed.

(** The sign of a difference survives its rounding: the difference of
    two binary64 values is a multiple of [2^-1074], which no rounding
    brings to zero. *)
Lemma sub_sign_rounded a b :
  onGrid a -> onGrid b ->
  Num.compare (Num.round64 (b - a)) Num.zero
  = Num.compare (NumOps.sub (Fin b) (Fin a)) Num.zero.
Proof.
  intros [ka Ha] [kb Hb]. rewrite sub_compare_zero.
  pose proof (pow2_pos (-1074)) as P.
  assert (representable (2 ^ (-1074))) as Hrep
    by (exists 1%Z; vm_compute; reflexivity).
  assert (b - a == inject_Z (kb - ka) * 2 ^ (-1074)) as E.
  { unfold Z.sub. rewrite inject_Z_plus, inject_Z_opp, Ha, Hb. ring. }
  destruct (Qcompare_spec a b) as [H|H|H]; cbn [CompOpp].
  - rewrite round64_zero by lra. reflexivity.
  - assert (0 < inject_Z (kb - ka)) as Hk by nra.
    change 0 with (inject_Z 0) in Hk. rewrite <- Zlt_Qlt in Hk.
    assert (1 <= inject_Z (kb - ka)) as Hk1
      by (change 1 with (inject_Z 1); rewrite <- Zle_Qle; lia).
    assert (2 ^ (-1074) <= b - a) as Hge by nra.
    destruct (round64_ge _ _ P Hrep Hge) as [-> | (r & -> & Hr)];
      [reflexivity|].
    unfold Num.compare, Num.zero, Num.of_Z. f_equal.
    apply Qgt_alt. change (inject_Z 0) with 0. lra.
  - assert (inject_Z (kb - ka) < 0) as Hk by nra.
    change 0 with (inject_Z 0) in Hk. rewrite <- Zlt_Qlt in Hk.
    assert (inject_Z (kb - ka) <= - (1)) as Hk1
      by (change (- (1)) with (inject_Z (-1)); rewrite <- Zle_Qle; lia).
    assert (2 ^ (-1074) <= - (b - a)) as Hge by nra.
    assert (b - a < 0) as Hneg by lra.
    rewrite (round64_neg _ Hneg).
    pose proof (round64_ge _ _ P Hrep Hge) as R.
    rewrite (round64_pos (- (b - a))) in R by lra.
    destruct (Num.round_pos (- (b - a))) as [r|].
    + destruct R as [R | (r' & R & Hr)]; [discriminate R|].
      injection R as <-.
      unfold Num.compare, Num.zero, Num.of_Z. f_equal.
      change (inject_Z 0) with 0. change (- r < 0). lra.
    + reflexivity.
Qed.

Lemma full_progress v m n :
  mileage v = Fin m -> nextServiceMileage v = Fin n -> 0 < n -> n <= m ->
  Num.strict_eq (serviceProgress v) (Num.of_Z 100) = true.
Proof.
  intros Hm Hn Hpos Hle. unfold serviceProgress. rewrite Hm, Hn.
  unfold Num.gt, Num.zero, Num.of_Z. cbn [Num.compare].
  assert ((n ?= inject_Z 0)%Q = Gt) as -> by (now apply Qgt_alt).
  fold (Num.of_Z 100). fold (Num.of_Z 0).
  rewrite (progress_div m n Hpos), (progress_full m n Hpos Hle).
  reflexivity.
Qed.

(** X14. For a record whose mileage and nextServiceMileage are finite
    numbers, the row is consistent: the bar is red exactly when OVERDUE
    is shown, exactly when mileage >= nextServiceMileage; and then, when
    nextServiceMileage is positive, the bar is full (progress 100), and
    the badge is 'Service Due' unless the status is "In Maintenance". *)
Theorem row_overdue_consistent
  (toLocaleString : number -> string) (v : vehicle) (m n : Q) :
  mileage v = Fin m -> nextServiceMileage v = Fin n ->
  (serviceBarColor v = "bg-red-500"
   <-> Num.ge (mileage v) (nextServiceMileage v) = true)
  /\ (mileageDisplay toLocaleString v = Overdue
      <-> Num.ge (mileage v) (nextServiceMileage v) = true)
  /\ (Num.ge (mileage v) (nextServiceMileage v) = true -> 0 < n ->
      Num.strict_eq (serviceProgress v) (Num.of_Z 100) = true)
  /\ (Num.ge (mileage v) (nextServiceMileage v) = true ->
      status v <> "In Maintenance" -> getStatusBadge v = ServiceDue).
Proof.
  intros Hm Hn.
  split; [|split; [|split]].
  - unfold serviceBarColor, mileageLeft, NumOps.le, Num.lt, Num.ge.
    rewrite Hm, Hn, sub_compare_zero. cbn [Num.compare].
    destruct (m ?= n)%Q; cbn [CompOpp]; try tauto;
      split; try discriminate;
      destruct (Num.compare _ _) as [[]|]; discriminate.
  - unfold mileageDisplay, mileageLeft, Num.gt, Num.ge.
    rewrite Hm, Hn, sub_compare_zero. cbn [Num.compare].
    destruct (m ?= n)%Q; cbn [CompOpp]; try tauto; split; discriminate.
  - intros Hge Hpos. apply (full_progress v m n Hm Hn Hpos).
    rewrite Hm, Hn in Hge. unfold Num.ge, Num.compare in Hge.
    destruct (Qcompare_spec m n) as [H|H|H]; try discriminate; lra.
  - intros Hge Hs. unfold getStatusBadge.
    apply String.eqb_neq in Hs. now rewrite Hs, Hge.
Qed.

Lemma row_overdue_consistent_witness :
  serviceBarColor (nth 0 sampleVehicles defaultVehicle) = "bg-red-500".
Proof.
  apply (proj1 (row_overdue_consistent (fun _ => "")
                  (nth 0 sampleVehicles defaultVehicle)
                  (inject_Z 85000) (inject_Z 80000) eq_refl eq_refl)).
  reflexivity.
Defined.

(** X15. A record with a mileage and without a usable
    nextServiceMileage (missing, or NaN) gets a row that contradicts
    itself: OVERDUE is shown, yet the bar is green and empty
    (progress 0) and, unless the status is "In Maintenance", the badge
    is 'Active'. *)
Theorem row_without_next_service
  (toLocaleString : number -> string) (v : vehicle) (m : Q) :
  mileage v = Fin m ->
  nextServiceMileage v = NaN ->
  mileageDisplay toLocaleString v = Overdue
  /\ serviceBarColor v = "bg-green-500"
  /\ serviceProgress v = Num.zero
  /\ (status v <> "In Maintenance" -> getStatusBadge v = Active).
Proof.
  intros Hm Hn.
  unfold mileageDisplay, serviceBarColor, serviceProgress, mileageLeft,
    getStatusBadge.
  rewrite Hm, Hn. cbn [NumOps.sub].
  repeat split.
  intros Hs. apply String.eqb_neq in Hs. now rewrite Hs.
Qed.

Lemma row_without_next_service_witness :
  serviceBarColor (set_nextServiceMileage NaN defaultVehicle)
  = "bg-green-500"
  /\ mileageDisplay (fun _ => "")
       (set_nextServiceMileage NaN defaultVehicle) = Overdue.
Proof.
  destruct (row_without_next_service (fun _ => "")
              (set_nextServiceMileage NaN defaultVehicle) (inject_Z 0)
              eq_refl eq_refl)
    as (H1 & H2 & _).
  split; assumption.
Defined.

(* ------------------------------------------------------------------ *)
(** ** Signing in *)

Section SignIn.

Variable rejects : collection -> vehicle -> bool.
Variable newId : collection -> string.

(** X16. What the authentication callback leaves behind.  It never
    touches the vehicles, the draft or the error.  For a signed-in user
    with a non-empty uid the component becomes ready.  For no user and
    no custom token, once the anonymous sign-in resolves the user id is
    the uid of the current user, or else the random UUID, and the
    component is ready if that UUID is not empty.  For no user and a
    custom token the user id is not set by this call: a component that
    was not ready stays so, and a submit or a seeding made then inserts
    nothing. *)
Theorem authStateChanged_readiness
  (env : authEnv) (user : option string) (s : state) :
  let s' := authStateChanged env user s in
  vehicles s' = vehicles s /\ newVehicle s' = newVehicle s
  /\ error s' = error s
  /\ (forall uid, user = Some uid -> uid <> "" ->
      notReady s' = false /\ userId s' = Some uid)
  /\ (user = None -> or_empty (initialAuthToken env) = "" ->
      signInResolves env = true -> randomUUID env <> "" ->
      notReady s' = false
      /\ (or_empty (currentUserUid env) <> "" ->
          userId s' = Some (or_empty (currentUserUid env)))
      /\ (or_empty (currentUserUid env) = "" ->
          userId s' = Some (randomUUID env)))
  /\ (user = None -> or_empty (initialAuthToken env) <> "" ->
      notReady s = true ->
      notReady s' = true
      /\ forall batch c,
           snd (fst (handleAddVehicle rejects newId s' c)) = c
           /\ filter isAddDoc (snd (handleAddVehicle rejects newId s' c)) = []
           /\ snd (fst (loadVehicles rejects newId batch s' c)) = c
           /\ filter isAddDoc (snd (loadVehicles rejects newId batch s' c))
              = []).
Proof.
  unfold authStateChanged.
  split; [|split; [|split; [|split; [|split]]]].
  - destruct user; [reflexivity|].
    destruct (nonempty _), (signInResolves env); reflexivity.
  - destruct user; [reflexivity|].
    destruct (nonempty _), (signInResolves env); reflexivity.
  - destruct user; [reflexivity|].
    destruct (nonempty _), (signInResolves env); reflexivity.
  - intros uid -> Hu. unfold notReady, nonempty. simpl.
    apply String.eqb_neq in Hu. now rewrite Hu.
  - intros -> Htok Hres Hrand.
    assert (nonempty (or_empty (initialAuthToken env)) = false) as Ht
      by (unfold nonempty; now rewrite Htok).
    rewrite Ht, Hres. simpl. apply String.eqb_neq in Hrand.
    unfold notReady, nonempty. simpl.
    destruct (or_empty (currentUserUid env) =? "")%string eqn:E; simpl.
    + rewrite Hrand. apply String.eqb_eq in E.
      repeat split; auto. congruence.
    + rewrite E. apply String.eqb_neq in E. repeat split; auto. congruence.
  - intros -> Htok Hnot.
    assert (nonempty (or_empty (initialAuthToken env)) = true) as Ht.
    { unfold nonempty. apply String.eqb_neq in Htok. now rewrite Htok. }
    rewrite Ht.
    destruct (signInResolves env).
    + split; [reflexivity|]. intros batch c.
      unfold handleAddVehicle, loadVehicles.
      change (notReady (setUserId None (setDb true s))) with true.
      simpl. auto.
    + split; [exact Hnot|]. intros batch c.
      unfold handleAddVehicle, loadVehicles. rewrite Hnot. simpl. auto.
Qed.

End SignIn.
